(** * Revoice: speaker attribution, voice allocation and dubbing assembly

    A shallow embedding of the two core scripts of the repository,
    [services/diarization-worker/app.py] and [server/dub.py], and the
    properties of their specification.

    Conventions.
    - Python [float] seconds are rationals ([Q]); the comparisons of the
      source are the exact comparisons on [Q].
    - Python [int] milliseconds and sample indices are [Z].
    - Python [str] is a [string] holding the UTF-8 encoding; [Py.len]
      counts code points, as [len] does.
    - A raised exception is an explicit error result. *)

From Stdlib Require Import ZArith QArith Qminmax Qabs List String Ascii Bool Lia Lqa.
From Stdlib Require Import Sorted OrderedTypeEx.
Import ListNotations.

Local Open Scope Z_scope.

(** ** Python primitives used by both scripts *)

Module Py.

(** [x < y] on floats. *)
Definition Qltb (x y : Q) : bool :=
  match (x ?= y)%Q with Lt => true | _ => false end.

(** [int(x)] on a float: truncation towards zero. *)
Definition int_of_float (q : Q) : Z := Z.quot (Qnum q) (Z.pos (Qden q)).

(** [l[a:b]] with Python's treatment of negative and out-of-range bounds. *)
Definition slice {A : Type} (l : list A) (a b : Z) : list A :=
  let n := Z.of_nat (List.length l) in
  let norm i := if i <? 0 then Z.max (i + n) 0 else Z.min i n in
  firstn (Z.to_nat (norm b - norm a)) (skipn (Z.to_nat (norm a)) l).

(** A byte of a UTF-8 string that continues a code point: [10xxxxxx]. *)
Definition is_continuation (c : ascii) : bool :=
  let n := N.to_nat (N_of_ascii c) in
  (Nat.leb 128 n && Nat.ltb n 192)%bool.

(** [len(s)]: the number of code points. *)
Fixpoint len (s : string) : Z :=
  match s with
  | EmptyString => 0
  | String c r => (if is_continuation c then 0 else 1) + len r
  end.

(** [c in s] for a one-byte character [c]. *)
Fixpoint contains (c : ascii) (s : string) : bool :=
  match s with
  | EmptyString => false
  | String d r => (Ascii.eqb c d || contains c r)%bool
  end.

(** Truthiness of a string: [bool(s)]. *)
Definition truthy (s : string) : bool :=
  match s with EmptyString => false | _ => true end.

(** [a or b] on optional strings ([None] is Python's [None]). *)
Definition or_else (a b : option string) : option string :=
  match a with
  | Some s => if truthy s then a else b
  | None => b
  end.

(** The ASCII white space, the part of [str.strip]'s character class that
    is one byte long. *)
Definition is_space (c : ascii) : bool :=
  let n := N.to_nat (N_of_ascii c) in
  ((Nat.leb 9 n && Nat.leb n 13) || (Nat.leb 28 n && Nat.leb n 32))%bool.

Fixpoint lstrip (s : string) : string :=
  match s with
  | EmptyString => EmptyString
  | String c r => if is_space c then lstrip r else s
  end.

Fixpoint rstrip (s : string) : string :=
  match s with
  | EmptyString => EmptyString
  | String c r =>
      match rstrip r with
      | EmptyString => if is_space c then EmptyString else String c EmptyString
      | r' => String c r'
      end
  end.

Definition strip (s : string) : string := rstrip (lstrip s).

(** [str.lower] on the ASCII letters; the bytes of other code points are
    left as they are (no other code point lowers to an ASCII letter of
    the words compared against in this program). *)
Definition lower_ascii (c : ascii) : ascii :=
  let n := N_of_ascii c in
  if (N.leb 65 n && N.leb n 90)%bool then ascii_of_N (n + 32) else c.

Fixpoint lower (s : string) : string :=
  match s with
  | EmptyString => EmptyString
  | String c r => String (lower_ascii c) (lower r)
  end.

End Py.

(** ** services/diarization-worker/app.py *)

Module Diarization.

Inductive Gender := male | female.

Definition Gender_eqb (a b : Gender) : bool :=
  match a, b with
  | male, male | female, female => true
  | _, _ => false
  end.

(** The dictionary [VOICES]: one ordered pool of voice ids per gender. *)
Record Voices (V : Type) := mkVoices { male_pool : list V; female_pool : list V }.
Arguments mkVoices {V}.
Arguments male_pool {V}.
Arguments female_pool {V}.

(** [VOICES[gender]] *)
Definition pool_of {V : Type} (vs : Voices V) (g : Gender) : list V :=
  match g with male => male_pool vs | female => female_pool vs end.

(** [VOICES[gender] = pool] *)
Definition set_pool {V : Type} (vs : Voices V) (g : Gender) (p : list V) : Voices V :=
  match g with
  | male => mkVoices p (female_pool vs)
  | female => mkVoices (male_pool vs) p
  end.

(** An entry of [diar_segments]. *)
Record Turn := mkTurn { t_start : Q; t_end : Q; t_speaker : string }.

Record WhisperSegment := mkWhisper { w_start : Q; w_end : Q; w_text : string }.

Record EnhancedSegment (V : Type) := mkEnhanced {
  e_start : Q; e_end : Q; e_text : string;
  speaker_id : string; voice_id : V; gender : Gender }.
Arguments mkEnhanced {V}.
Arguments e_start {V}.
Arguments e_end {V}.
Arguments e_text {V}.
Arguments speaker_id {V}.
Arguments voice_id {V}.
Arguments gender {V}.

(** *** Step 1: the turns kept from the diarization pipeline *)

(** [if (turn.end - turn.start) < 0.2: continue] *)
Definition keep_turn (t : Turn) : bool :=
  negb (Py.Qltb (t_end t - t_start t) 0.2).

Definition diar_segments_of (turns : list Turn) : list Turn :=
  filter keep_turn turns.

(** [sorted(list(set(...)))]: insertion into a strictly increasing list. *)
Fixpoint insert_label (s : string) (l : list string) : list string :=
  match l with
  | [] => [s]
  | x :: r =>
      match String_as_OT.cmp s x with
      | Lt => s :: x :: r
      | Eq => x :: r
      | Gt => x :: insert_label s r
      end
  end.

Definition sorted_set (l : list string) : list string :=
  fold_right insert_label [] l.

Definition DEFAULT_SPEAKER : string := "SPEAKER_00".

(** [unique_speakers], after the substitution made when it is empty. *)
Definition unique_speakers (diar_segments : list Turn) : list string :=
  match sorted_set (map t_speaker diar_segments) with
  | [] => [DEFAULT_SPEAKER]
  | us => us
  end.

(** [unique_speakers[0]] *)
Definition first_speaker (diar_segments : list Turn) : string :=
  hd DEFAULT_SPEAKER (unique_speakers diar_segments).

(** *** Step 2: per-speaker audio, pitch, gender and voice *)

Definition sr : Z := 16000.

Section Audio.

Variable sample : Type.

(** The inner loop over [diar_segments] for one speaker; the accumulator
    is [(spk_audio, dur)], and leaving the recursion is the [break]. *)
Fixpoint aggregate (spk : string) (y_full : list sample) (ds : list Turn)
    (acc : list sample * Q) : list sample * Q :=
  match ds with
  | [] => acc
  | d :: rest =>
      if String.eqb (t_speaker d) spk then
        let start_s := Py.int_of_float (t_start d * inject_Z sr) in
        let end_s := Py.int_of_float (t_end d * inject_Z sr) in
        let n := Z.of_nat (List.length y_full) in
        let audio :=
          if start_s <? n
          then fst acc ++ Py.slice y_full start_s (Z.min end_s n)
          else fst acc in
        let dur := (snd acc + (t_end d - t_start d))%Q in
        if Py.Qltb 20 dur then (audio, dur)
        else aggregate spk y_full rest (audio, dur)
      else aggregate spk y_full rest acc
  end.

Definition spk_audio (spk : string) (y_full : list sample) (ds : list Turn)
    : list sample :=
  fst (aggregate spk y_full ds ([], 0%Q)).

(** The duration, in seconds, of a run of samples at rate [sr]. *)
Definition seconds_of (a : list sample) : Q :=
  (inject_Z (Z.of_nat (List.length a)) / inject_Z sr)%Q.

(** The pitch estimator is a collaborator. *)
Variable get_pitch : list sample -> Q.

(** [get_pitch(np.array(spk_audio), sr) if len(spk_audio) > 1024 else 0] *)
Definition pitch_of (y_full : list sample) (ds : list Turn) (spk : string) : Q :=
  let a := spk_audio spk y_full ds in
  if 1024 <? Z.of_nat (List.length a) then get_pitch a else 0%Q.

End Audio.

Record Cursors := mkCursors { male_cursor : nat; female_cursor : nat }.

(** The gender decision of one iteration of the speaker loop. *)
Definition classify (pitch : Q) (c : Cursors) : Gender :=
  if Qeq_bool pitch 0 then
    if Nat.eqb ((male_cursor c + female_cursor c) mod 2) 0 then male else female
  else
    if Py.Qltb pitch 185 then male else female.

Section Allocation.

Variable V : Type.

Record SpeakerInfo := mkInfo { i_voice : V; i_gender : Gender }.

(** [pool[cursor % len(pool)]] and the cursor increment; [None] is the
    [ZeroDivisionError] of an empty pool. *)
Definition allocate (vs : Voices V) (g : Gender) (c : Cursors)
    : option (V * Cursors) :=
  let pool := pool_of vs g in
  match g with
  | male =>
      match nth_error pool (male_cursor c mod List.length pool)%nat with
      | Some v => Some (v, mkCursors (S (male_cursor c)) (female_cursor c))
      | None => None
      end
  | female =>
      match nth_error pool (female_cursor c mod List.length pool)%nat with
      | Some v => Some (v, mkCursors (male_cursor c) (S (female_cursor c)))
      | None => None
      end
  end.

(** [speaker_info[spk] = ...] on a dictionary kept in insertion order. *)
Fixpoint dict_set (k : string) (v : SpeakerInfo) (d : list (string * SpeakerInfo))
    : list (string * SpeakerInfo) :=
  match d with
  | [] => [(k, v)]
  | (k', v') :: r =>
      if String.eqb k' k then (k', v) :: r else (k', v') :: dict_set k v r
  end.

Fixpoint dict_get (k : string) (d : list (string * SpeakerInfo)) : option SpeakerInfo :=
  match d with
  | [] => None
  | (k', v') :: r => if String.eqb k' k then Some v' else dict_get k r
  end.

(** The loop [for spk in unique_speakers], with the pitch of each speaker
    given by [pitch]. *)
Fixpoint assign_loop (pitch : string -> Q) (vs : Voices V) (spks : list string)
    (c : Cursors) (info : list (string * SpeakerInfo))
    : option (Cursors * list (string * SpeakerInfo)) :=
  match spks with
  | [] => Some (c, info)
  | spk :: rest =>
      let g := classify (pitch spk) c in
      match allocate vs g c with
      | Some (v, c') => assign_loop pitch vs rest c' (dict_set spk (mkInfo v g) info)
      | None => None
      end
  end.

Definition assign_voices (pitch : string -> Q) (vs : Voices V) (spks : list string)
    : option (list (string * SpeakerInfo)) :=
  match assign_loop pitch vs spks (mkCursors 0 0) [] with
  | Some (_, info) => Some info
  | None => None
  end.

End Allocation.

Arguments mkInfo {V}.
Arguments i_voice {V}.
Arguments i_gender {V}.
Arguments allocate {V}.
Arguments dict_set {V}.
Arguments dict_get {V}.
Arguments assign_loop {V}.
Arguments assign_voices {V}.

(** *** Step 3: aligning the transcript segments to the turns *)

Definition overlap (w : WhisperSegment) (d : Turn) : Q :=
  Qmax 0 (Qmin (w_end w) (t_end d) - Qmax (w_start w) (t_start d)).

Definition endpoint_dist (w : WhisperSegment) (d : Turn) : Q :=
  Qmin (Qabs (w_start w - t_end d)) (Qabs (w_end w - t_start d)).

(** First loop: the accumulator is [(max_overlap, best_speaker)]. *)
Fixpoint overlap_loop (w : WhisperSegment) (ds : list Turn) (acc : Q * string)
    : Q * string :=
  match ds with
  | [] => acc
  | d :: rest =>
      let o := overlap w d in
      if Py.Qltb (fst acc) o
      then overlap_loop w rest (o, t_speaker d)
      else overlap_loop w rest acc
  end.

(** Second loop: the accumulator is [(min_dist, best_speaker)], with
    [None] for [float('inf')]. *)
Fixpoint nearest_loop (w : WhisperSegment) (ds : list Turn) (acc : option Q * string)
    : option Q * string :=
  match ds with
  | [] => acc
  | d :: rest =>
      let x := endpoint_dist w d in
      let closer := match fst acc with None => true | Some m => Py.Qltb x m end in
      if closer
      then nearest_loop w rest (Some x, t_speaker d)
      else nearest_loop w rest acc
  end.

(** [best_speaker] after both loops, for one transcript segment. *)
Definition best_speaker (first : string) (ds : list Turn) (w : WhisperSegment) : string :=
  let '(max_overlap, best) := overlap_loop w ds (0%Q, first) in
  if (Qeq_bool max_overlap 0 && negb (Nat.eqb (List.length ds) 0))%bool
  then snd (nearest_loop w ds (None, best))
  else best.

(** The labels of the transcript segments, in order. *)
Definition attribute (ds : list Turn) (ws : list WhisperSegment)
    : list (WhisperSegment * string) :=
  map (fun w => (w, best_speaker (first_speaker ds) ds w)) ws.

(** [results.append({...})] for one labelled segment; [None] is the
    [KeyError] of [speaker_info[unique_speakers[0]]]. *)
Definition enrich {V : Type} (first : string) (info : list (string * SpeakerInfo V))
    (r : WhisperSegment * string) : option (EnhancedSegment V) :=
  match dict_get first info with
  | None => None
  | Some dflt =>
      let i := match dict_get (snd r) info with Some i => i | None => dflt end in
      Some (mkEnhanced (w_start (fst r)) (w_end (fst r)) (w_text (fst r))
                       (snd r) (i_voice i) (i_gender i))
  end.

Fixpoint enrich_all {V : Type} (first : string) (info : list (string * SpeakerInfo V))
    (rs : list (WhisperSegment * string)) : option (list (EnhancedSegment V)) :=
  match rs with
  | [] => Some []
  | r :: rest =>
      match enrich first info r, enrich_all first info rest with
      | Some e, Some es => Some (e :: es)
      | _, _ => None
      end
  end.

(** The body of the [/diarize] handler once the pipeline has produced its
    turns and the audio is loaded; [None] is the HTTP 500 answer. *)
Definition diarize {sample V : Type} (get_pitch : list sample -> Q)
    (VOICES : Voices V) (turns : list Turn) (y_full : list sample)
    (whisperSegments : list WhisperSegment) : option (list (EnhancedSegment V)) :=
  let ds := diar_segments_of turns in
  let us := unique_speakers ds in
  match assign_voices (pitch_of sample get_pitch y_full ds) VOICES us with
  | None => None
  | Some info => enrich_all (first_speaker ds) info (attribute ds whisperSegments)
  end.

End Diarization.

(** ** server/dub.py *)

Module Dub.

(** Voice mapping of the fallback provider. *)
Definition EDGE_VOICES (lang_code : string) : option string :=
  if String.eqb lang_code "en"%string then Some "en-US-GuyNeural"%string
  else if String.eqb lang_code "fr"%string then Some "fr-FR-HenriNeural"%string
  else if String.eqb lang_code "ar"%string then Some "ar-SA-HamedNeural"%string
  else if String.eqb lang_code "tn"%string then Some "ar-TN-HediNeural"%string
  else if String.eqb lang_code "default"%string then Some "en-US-GuyNeural"%string
  else None.

Definition default_voice : string := "nPczCjzI2devNBz1zQrb"%string.

Definition VOICE_NOT_FOUND : string := "VOICE_NOT_FOUND"%string.

(** The exceptions the script tells apart: [ValueError] and the rest. *)
Inductive exn :=
| ValueError (msg : string)
| Exception_ (msg : string).

Definition exn_eqb_value (e : exn) (m : string) : bool :=
  match e with ValueError s => String.eqb s m | Exception_ _ => false end.

(** An entry of the segments file. *)
Record Segment := mkSegment {
  s_start : Q; s_end : Q; s_text : string;
  s_voice_id : option string;   (* key 'voice_id' *)
  s_voiceId : option string }.  (* key 'voiceId' *)

(** Lines 195-200: the voice used for a segment. *)
Definition supplied_voice (seg : Segment) : option string :=
  Py.or_else (s_voice_id seg) (s_voiceId seg).

Definition invalid_voice (v : string) : bool :=
  (negb (Py.truthy v) || (Py.len v <? 10) || Py.contains " "%char v)%bool.

Definition segment_voice (seg : Segment) : string :=
  let v :=
    match Py.or_else (supplied_voice seg) (Some default_voice) with
    | Some s => s
    | None => default_voice
    end in
  if invalid_voice v then default_voice else v.

(** A byte that starts a code point of the range U+0600..U+06FF. *)
Definition is_arabic_lead (c : ascii) : bool :=
  let n := N.to_nat (N_of_ascii c) in (Nat.leb 216 n && Nat.leb n 219)%bool.

Fixpoint has_arabic (s : string) : bool :=
  match s with
  | EmptyString => false
  | String c r => (is_arabic_lead c || has_arabic r)%bool
  end.

(** The voice chosen by [generate_edge_tts]. *)
Definition edge_voice (text lang_code : string) : option string :=
  if has_arabic text then
    (if String.eqb lang_code "tn"%string then EDGE_VOICES "tn"%string else EDGE_VOICES "ar"%string)
  else
    match EDGE_VOICES lang_code with
    | Some v => Some v
    | None => EDGE_VOICES "default"%string
    end.

(** [stretch_audio] clamps its ratio before calling the stretch utility. *)
Definition clamp_ratio (ratio : Q) : Q :=
  let r := if Py.Qltb ratio 0.5 then 0.5%Q else ratio in
  if Py.Qltb 2.0 r then 2.0%Q else r.

(** Observable actions of a job, oldest first. *)
Inductive Event :=
| Post (voice : string)          (* one HTTP request to the primary provider *)
| Sleep                          (* [asyncio.sleep(1)] *)
| Edge (voice : option string)   (* one call of the fallback provider *)
| Atempo (ratio : Q).            (* one run of the stretch utility *)

Section Job.

(** Decoded audio, and the collaborators of the script. *)
Variable Audio : Type.
Variable duration : Audio -> Z.                       (* [len(audio_seg)], ms *)

(** The answer of the primary provider to one request. *)
Inductive Response :=
| Http (status : Z) (body : option Audio)   (* body: the audio, if it decodes *)
| Raises (e : exn).

Variable api_key : bool.
(** The provider's answer to the [n]-th request of the job. *)
Variable eleven : nat -> string -> string -> Response.
Variable edge_tts : string -> option string -> option Audio.
Variable atempo : Q -> Audio -> option Audio.

(** The output track: what was appended, in order. *)
Inductive Piece :=
| Silent (ms : Z)
| Sound (a : Audio).

Definition piece_len (p : Piece) : Z :=
  match p with Silent ms => ms | Sound a => duration a end.

Definition track_len (t : list Piece) : Z :=
  fold_right (fun p n => piece_len p + n) 0 t.

Definition log := list Event.

Definition posts_of (l : log) : nat :=
  List.length (filter (fun e => match e with Post _ => true | _ => false end) l).

(** Outcome of [generate_tts]: the file it wrote, or the exception. *)
Inductive Outcome :=
| Wrote (body : option Audio)
| Raised (e : exn)
| FellThrough.

(** [max_retries] *)
Definition MAX_RETRIES : nat := 3.

(** [for attempt in range(max_retries)], from [attempt] on with [left]
    iterations to go.  [handler] is the [except Exception as e] clause of
    the attempt; both [raise] statements of the body stand inside its
    [try], so they go through it. *)
Fixpoint tts_attempts (text voice_id : string) (attempt left : nat) (l : log)
    : log * Outcome :=
  match left with
  | O => (l, FellThrough)
  | S left' =>
      let last := Nat.eqb attempt (MAX_RETRIES - 1) in
      let handler (l' : log) (e : exn) :=
        if last then (l', Raised e)
        else tts_attempts text voice_id (S attempt) left' (l' ++ [Sleep]) in
      let l1 := l ++ [Post voice_id] in
      match eleven (posts_of l) voice_id text with
      | Raises e => handler l1 e
      | Http status body =>
          if negb (status =? 200) then
            if status =? 404 then handler l1 (ValueError VOICE_NOT_FOUND)
            else if last then handler l1 (Exception_ "ElevenLabs error"%string)
            else tts_attempts text voice_id (S attempt) left' (l1 ++ [Sleep])
          else (l1, Wrote body)
      end
  end.

Definition generate_tts (text voice_id : string) (l : log) : log * Outcome :=
  if negb api_key then (l, Raised (Exception_ "ELEVENLABS_API_KEY is missing"%string))
  else tts_attempts text voice_id 0 MAX_RETRIES l.

(** Lines 204-213: the primary call with its [except ValueError]. *)
Definition primary (text voice : string) (l : log) : log * Outcome :=
  match generate_tts text voice l with
  | (l1, Raised ve) =>
      if (exn_eqb_value ve VOICE_NOT_FOUND && negb (String.eqb voice default_voice))%bool
      then generate_tts text default_voice l1
      else (l1, Raised ve)
  | r => r
  end.

(** Lines 215-222: the clip fitted to the target duration; [None] is an
    exception of the stretch or of decoding its output. *)
Definition needs_stretch (ratio : Q) : bool :=
  (Py.Qltb 1.05 ratio || Py.Qltb ratio 0.95)%bool.

(** [stretch_audio] followed by the decoding of its output file. *)
Definition stretch_audio (input : Audio) (ratio : Q) (l : log) : log * option Audio :=
  let ratio := clamp_ratio ratio in
  (l ++ [Atempo ratio], atempo ratio input).

Definition fit (audio_seg : Audio) (target_duration : Z) (l : log)
    : log * option Audio :=
  let ratio := (inject_Z (duration audio_seg) / inject_Z target_duration)%Q in
  if needs_stretch ratio
  then stretch_audio audio_seg ratio l
  else (l, Some audio_seg).

(** [generate_edge_tts] followed by the decoding of its output file. *)
Definition generate_edge_tts (text lang_code : string) (l : log) : log * option Audio :=
  let voice := edge_voice text lang_code in
  (l ++ [Edge voice], edge_tts text voice).

(** Lines 224-227: gap silence, then the clip. *)
Definition place (combined_audio : list Piece) (start_ms : Z) (final_clip : Audio)
    : list Piece :=
  let padded :=
    if track_len combined_audio <? start_ms
    then combined_audio ++ [Silent (start_ms - track_len combined_audio)]
    else combined_audio in
  padded ++ [Sound final_clip].

(** How a segment ended up in the track. *)
Inductive Path := ViaPrimary | ViaFallback | AllFailed | Skipped.

(** One iteration of the segment loop. *)
Definition step (lang_code : string) (seg : Segment) (st : list Piece * log)
    : (list Piece * log) * Path :=
  let '(combined_audio, l) := st in
  let start_ms := Py.int_of_float (s_start seg * 1000) in
  let end_ms := Py.int_of_float (s_end seg * 1000) in
  let text := Py.strip (s_text seg) in
  if negb (Py.truthy text) then (st, Skipped) else
  let target_duration := end_ms - start_ms in
  if target_duration <=? 0 then (st, Skipped) else
  let voice := segment_voice seg in
  let fallback (l' : log) :=
    match generate_edge_tts text lang_code l' with
    | (l2, Some audio_seg) =>
        match fit audio_seg target_duration l2 with
        | (l3, Some final_clip) => ((place combined_audio start_ms final_clip, l3), ViaFallback)
        | (l3, None) => ((combined_audio ++ [Silent target_duration], l3), AllFailed)
        end
    | (l2, None) => ((combined_audio ++ [Silent target_duration], l2), AllFailed)
    end in
  match primary text voice l with
  | (l1, Wrote (Some audio_seg)) =>
      match fit audio_seg target_duration l1 with
      | (l2, Some final_clip) => ((place combined_audio start_ms final_clip, l2), ViaPrimary)
      | (l2, None) => fallback l2
      end
  | (l1, _) => fallback l1
  end.

(** The loop [for i, seg in enumerate(segments)]. *)
Fixpoint run (lang_code : string) (segments : list Segment) (st : list Piece * log)
    : (list Piece * log) * list Path :=
  match segments with
  | [] => (st, [])
  | seg :: rest =>
      let '(st1, p) := step lang_code seg st in
      let '(st2, ps) := run lang_code rest st1 in
      (st2, p :: ps)
  end.

Definition main (lang_code : string) (segments : list Segment)
    : (list Piece * log) * list Path :=
  run lang_code segments ([], []).

End Job.

End Dub.

(** ** services/diarization-worker/app.py: the voice catalog *)

Module Catalog.

Import Diarization.

(** A value produced by [json.load]. *)
#[warnings="-register-all"]
Inductive json :=
| JNull
| JBool (b : bool)
| JNum (n : Q)
| JStr (s : string)
| JArr (items : list json)
| JObj (fields : list (string * json)).

(** Truthiness of a parsed value. *)
Definition truthy (j : json) : bool :=
  match j with
  | JNull => false
  | JBool b => b
  | JNum n => negb (Qeq_bool n 0)
  | JStr s => Py.truthy s
  | JArr l => negb (Nat.eqb (List.length l) 0)
  | JObj l => negb (Nat.eqb (List.length l) 0)
  end.

Fixpoint lookup (k : string) (fields : list (string * json)) : option json :=
  match fields with
  | [] => None
  | (k', v) :: r => if String.eqb k' k then Some v else lookup k r
  end.

(** [x.get(k)]: [None] outside is the [AttributeError] of a value that is
    not a dictionary; [None] inside is a missing key. *)
Definition get (x : json) (k : string) : option (option json) :=
  match x with
  | JObj fields => Some (lookup k fields)
  | _ => None
  end.

(** The fallback defaults. *)
Local Open Scope string_scope.

Definition DEFAULT_VOICES : Voices json :=
  mkVoices
    [ JStr "nPczCjzI2devNBz1zQrb"; JStr "pNInz6obpgDQGcFmaJgB";
      JStr "ErXwobaYiN019PkySvjV"; JStr "JBFqnCBsd6RMkjVDRZzb";
      JStr "IKne3meq5aSn9XLyUdCD"; JStr "onwK4e9ZLuTAKqWW03F9" ]
    [ JStr "Xb7hH8MSUJpSbSDYk0k2"; JStr "21m00Tcm4TlvDq8ikWAM";
      JStr "MF3mGyEYCl7XYWbV9V6O"; JStr "EXAVITQu4vr4xnSDxMaL";
      JStr "XrExE9yKIg1WjnnlVkGX"; JStr "FGY2WhTYpPnrIDTdsKH5" ].

(** What is found at [/app/voices_list.json]. *)
Inductive CatalogFile :=
| Missing                  (* [os.path.exists] is false *)
| Unreadable               (* [open] or [json.load] raises *)
| Content (data : json).

(** One iteration of [for item in voice_items]; [None] is an exception
    ([item] or [labels] is no dictionary, or the gender is no string). *)
Definition scan_item (item : json) (acc : list json * list json)
    : option (list json * list json) :=
  match item with
  | JObj fields =>
      let vid := lookup "voice_id" fields in
      let labels :=
        match lookup "labels" fields with Some l => l | None => JObj [] end in
      match labels with
      | JObj label_fields =>
          match
            match lookup "gender" label_fields with Some g => g | None => JStr EmptyString end
          with
          | JStr s =>
              let gender := Py.lower s in
              match vid with
              | Some v =>
                  if truthy v then
                    if String.eqb gender "male" then Some ((fst acc ++ [v])%list, snd acc)
                    else if String.eqb gender "female" then Some (fst acc, (snd acc ++ [v])%list)
                    else Some acc
                  else Some acc
              | None => Some acc
              end
          | _ => None
          end
      | _ => None
      end
  | _ => None
  end.

Fixpoint scan (items : list json) (acc : list json * list json)
    : option (list json * list json) :=
  match items with
  | [] => Some acc
  | item :: rest =>
      match scan_item item acc with
      | Some acc' => scan rest acc'
      | None => None
      end
  end.

(** The lists [(new_male, new_female)] read from the file, or [None] when
    the function returns early or an exception reaches its handler. *)
Definition read_catalog (file : CatalogFile) : option (list json * list json) :=
  match file with
  | Missing => None
  | Unreadable => None
  | Content data =>
      match get data "voices" with
      | None => None
      | Some found =>
          let voice_items := match found with Some v => v | None => JArr [] end in
          if negb (truthy voice_items) then None
          else
            match voice_items with
            | JArr items => scan items ([], [])
            | _ => None   (* iterating yields no dictionary, or nothing iterable *)
            end
      end
  end.

(** [load_dynamic_voices], as a function of the file and of [VOICES]. *)
Definition load_dynamic_voices (file : CatalogFile) (VOICES : Voices json)
    : Voices json :=
  match read_catalog file with
  | None => VOICES
  | Some (new_male, new_female) =>
      let v1 := if truthy (JArr new_male) then set_pool VOICES male new_male else VOICES in
      if truthy (JArr new_female) then set_pool v1 female new_female else v1
  end.

(** [VOICES] after the initial load at import time. *)
Definition VOICES (file : CatalogFile) : Voices json :=
  load_dynamic_voices file DEFAULT_VOICES.

End Catalog.

(** ** services/diarization-worker/app.py: pitch and speaker samples *)

Module Worker.

(** [np.median] works on the sorted values. *)
Fixpoint insert_sorted (x : Q) (l : list Q) : list Q :=
  match l with
  | [] => [x]
  | y :: r => if Qle_bool x y then x :: y :: r else y :: insert_sorted x r
  end.

Definition sorted (l : list Q) : list Q := fold_right insert_sorted [] l.

(** [np.median(values)] for a non-empty array: the middle value, or the
    mean of the two middle values. *)
Definition median (values : list Q) : Q :=
  let s := sorted values in
  let n := List.length s in
  if Nat.even n
  then ((nth (n / 2 - 1) s 0 + nth (n / 2) s 0) / 2)%Q
  else nth (n / 2) s 0%Q.

(** [f0[~np.isnan(f0)]], a frame without pitch being [None]. *)
Fixpoint voiced (f0 : list (option Q)) : list Q :=
  match f0 with
  | [] => []
  | Some f :: r => f :: voiced r
  | None :: r => voiced r
  end.

Section Pitch.

Variable sample : Type.

(** [librosa.pyin(y, fmin=65, fmax=400, sr=sr)]: the pitch of each frame,
    or [None] when it raises. *)
Variable pyin : list sample -> option (list (option Q)).

Definition get_pitch (y : list sample) : Q :=
  if Nat.eqb (List.length y) 0 then 0%Q
  else
    match pyin y with
    | Some f0 =>
        let voiced_f0 := voiced f0 in
        if Nat.eqb (List.length voiced_f0) 0 then 0%Q else median voiced_f0
    | None => 0%Q
    end.

(** Lines 208-213: the sample saved for the cloning workflow, if any. *)
Definition speaker_sample (spk_audio : list sample) : option (list sample) :=
  if Nat.eqb (List.length spk_audio) 0 then None
  else Some (Py.slice spk_audio 0 (Py.int_of_float (10 * inject_Z Diarization.sr))).

End Pitch.

End Worker.

(** ** server/dub.py: the voice table *)

Module DubVoices.

(** [voices_map.get(voice_type, voices_map['unknown'])] *)
Definition get_best_voice (lang_code voice_type : string) : string :=
  if String.eqb voice_type "male" then "nPczCjzI2devNBz1zQrb"%string
  else if String.eqb voice_type "female" then "Xb7hH8MSUJpSbSDYk0k2"%string
  else if String.eqb voice_type "unknown" then "nPczCjzI2devNBz1zQrb"%string
  else "nPczCjzI2devNBz1zQrb"%string.

End DubVoices.

(** * Vocabulary of the statements *)

(** [m <= x] when [m] is a distance already seen, false for infinity. *)
Definition below (m : option Q) (x : Q) : Prop :=
  match m with Some q => (q <= x)%Q | None => False end.

(** The cursor of a gender. *)
Definition cursor_of (c : Diarization.Cursors) (g : Diarization.Gender) : nat :=
  match g with
  | Diarization.male => Diarization.male_cursor c
  | Diarization.female => Diarization.female_cursor c
  end.

(** Number of speakers of gender [g] in a run of assignments. *)
Definition count_gender (V : Type) (g : Diarization.Gender)
    (l : list (string * Diarization.SpeakerInfo V)) : nat :=
  List.length
    (filter (fun p => Diarization.Gender_eqb (Diarization.i_gender (snd p)) g) l).

(** The cursors after the assignments [tr] were made from [c]. *)
Definition advance (V : Type) (c : Diarization.Cursors)
    (tr : list (string * Diarization.SpeakerInfo V)) : Diarization.Cursors :=
  Diarization.mkCursors
    (Diarization.male_cursor c + count_gender V Diarization.male tr)
    (Diarization.female_cursor c + count_gender V Diarization.female tr).

(** The requests and pauses of [k] attempts for one voice. *)
Fixpoint attempts_log (voice : string) (k : nat) : Dub.log :=
  match k with
  | O => []
  | S O => [Dub.Post voice]
  | S k' => Dub.Post voice :: Dub.Sleep :: attempts_log voice k'
  end.

(** Number of calls of the fallback provider in a log. *)
Definition edges_of (l : Dub.log) : nat :=
  List.length (filter (fun e => match e with Dub.Edge _ => true | _ => false end) l).



(** The voice id of a catalog entry that [scan_item] may add to a pool. *)
Definition listed_voice (item v : Catalog.json) : Prop :=
  exists fields, item = Catalog.JObj fields /\
                 Catalog.lookup "voice_id" fields = Some v /\
                 Catalog.truthy v = true.

(** The exception that an answer of the primary provider leads to, if
    any: the answer's own, [VOICE_NOT_FOUND] for a 404, a plain exception
    for another status than 200. *)
Definition failure_of {Audio : Type} (r : Dub.Response Audio) : option Dub.exn :=
  match r with
  | Dub.Raises _ e => Some e
  | Dub.Http _ status _ =>
      if status =? 200 then None
      else if status =? 404 then Some (Dub.ValueError Dub.VOICE_NOT_FOUND)
      else Some (Dub.Exception_ "ElevenLabs error")
  end.

(** An event that stands for a request to the primary provider. *)
Definition is_post (e : Dub.Event) : bool :=
  match e with Dub.Post _ => true | _ => false end.

(** The stretch ratios recorded in a log lie in the range of the stretch
    utility. *)
Definition ratio_in_range (e : Dub.Event) : Prop :=
  match e with
  | Dub.Atempo r => (0.5 <= r)%Q /\ (r <= 2.0)%Q
  | _ => True
  end.

(** A segment that went to the fallback provider. *)
Definition used_fallback (p : Dub.Path) : bool :=
  match p with Dub.ViaFallback | Dub.AllFailed => true | _ => false end.

(** A segment that was not skipped. *)
Definition processed (p : Dub.Path) : bool :=
  match p with Dub.Skipped => false | _ => true end.

(** [start_ms] and [target_duration] of a segment. *)
Definition start_ms_of (seg : Dub.Segment) : Z :=
  Py.int_of_float (Dub.s_start seg * 1000).

Definition target_duration_of (seg : Dub.Segment) : Z :=
  Py.int_of_float (Dub.s_end seg * 1000) - Py.int_of_float (Dub.s_start seg * 1000).

(** What a log gains from one call: requests, fallback calls, and
    whether the recorded ratios stay in range. *)
Definition gains (l l' : Dub.log) (max_posts edges : nat) : Prop :=
  (Dub.posts_of l <= Dub.posts_of l' <= Dub.posts_of l + max_posts)%nat /\
  edges_of l' = (edges_of l + edges)%nat /\
  (Forall ratio_in_range l -> Forall ratio_in_range l').

(** The silence put before a clip: the gap up to [start_ms], if any. *)
Definition gap_before (Audio : Type) (duration : Audio -> Z)
    (track : list (Dub.Piece Audio)) (start_ms : Z) : list (Dub.Piece Audio) :=
  if Dub.track_len Audio duration track <? start_ms
  then [Dub.Silent Audio (start_ms - Dub.track_len Audio duration track)]
  else [].

(** * Properties *)

(** ** Comparisons on rationals *)

Lemma Qltb_lt (x y : Q) : Py.Qltb x y = true <-> (x < y)%Q.
Proof.
  unfold Py.Qltb. rewrite Qlt_alt. destruct (x ?= y)%Q; split; congruence.
Qed.

Lemma Qltb_ge (x y : Q) : Py.Qltb x y = false <-> (y <= x)%Q.
Proof.
  split; intro H.
  - apply Qnot_lt_le. intro L. apply Qltb_lt in L. congruence.
  - destruct (Py.Qltb x y) eqn:E; [|reflexivity].
    apply Qltb_lt in E. exfalso. apply (Qlt_not_le _ _ E H).
Qed.

(** ** The overlap aligner *)

Section Aligner.

Import Diarization.

Variable w : WhisperSegment.

Lemma overlap_nonneg (d : Turn) : (0 <= overlap w d)%Q.
Proof. unfold overlap. apply Q.le_max_l. Qed.

(** The first loop returns an upper bound of every overlap, and either
    keeps its accumulator or returns the overlap and label of a turn. *)
Lemma overlap_loop_spec (ds : list Turn) :
  forall m0 s0,
    let r := overlap_loop w ds (m0, s0) in
    (m0 <= fst r)%Q /\
    (forall d, In d ds -> (overlap w d <= fst r)%Q) /\
    (r = (m0, s0) \/ exists d, In d ds /\ r = (overlap w d, t_speaker d)).
Proof.
  induction ds as [|d rest IH]; intros m0 s0; cbn [overlap_loop fst].
  - repeat split; [apply Qle_refl | intros d [] | now left].
  - destruct (Py.Qltb m0 (overlap w d)) eqn:E.
    + apply Qltb_lt in E.
      destruct (IH (overlap w d) (t_speaker d)) as (Hle & Hub & Hwho).
      repeat split.
      * eapply Qle_trans; [apply Qlt_le_weak, E | exact Hle].
      * intros d' [<- | Hin]; [exact Hle | now apply Hub].
      * right. destruct Hwho as [-> | (d' & Hin & ->)].
        -- exists d. split; [now left | reflexivity].
        -- exists d'. split; [now right | reflexivity].
    + apply Qltb_ge in E.
      destruct (IH m0 s0) as (Hle & Hub & Hwho).
      repeat split.
      * exact Hle.
      * intros d' [<- | Hin]; [eapply Qle_trans; eassumption | now apply Hub].
      * destruct Hwho as [-> | (d' & Hin & ->)]; [now left|].
        right. exists d'. split; [now right | reflexivity].
Qed.

Lemma nearest_loop_spec (ds : list Turn) :
  forall acc,
    let r := nearest_loop w ds acc in
    (forall d, In d ds -> below (fst r) (endpoint_dist w d)) /\
    (forall m, fst acc = Some m -> below (fst r) m) /\
    (r = acc \/ exists d, In d ds /\ r = (Some (endpoint_dist w d), t_speaker d)).
Proof.
  induction ds as [|d rest IH]; intros [a s]; cbn [nearest_loop fst].
  - repeat split; [intros d [] | intros m ->; apply Qle_refl | now left].
  - set (x := endpoint_dist w d).
    destruct (match a with None => true | Some m => Py.Qltb x m end) eqn:E.
    + destruct (IH (Some x, t_speaker d)) as (Hlb & Hacc & Hwho).
      cbn [fst] in Hacc. specialize (Hacc x eq_refl).
      repeat split.
      * intros d' [<- | Hin]; [exact Hacc | now apply Hlb].
      * intros m ->. apply Qltb_lt in E.
        destruct (fst (nearest_loop w rest (Some x, t_speaker d))); cbn in *;
          [|contradiction].
        eapply Qle_trans; [exact Hacc | apply Qlt_le_weak, E].
      * right. destruct Hwho as [-> | (d' & Hin & ->)].
        -- exists d. split; [now left | reflexivity].
        -- exists d'. split; [now right | reflexivity].
    + destruct a as [m|]; [|discriminate]. apply Qltb_ge in E.
      destruct (IH (Some m, s)) as (Hlb & Hacc & Hwho).
      cbn [fst] in Hacc. specialize (Hacc m eq_refl).
      repeat split.
      * intros d' [<- | Hin]; [|now apply Hlb].
        destruct (fst (nearest_loop w rest (Some m, s))); cbn in *; [|contradiction].
        eapply Qle_trans; eassumption.
      * intros m' [= <-]. exact Hacc.
      * destruct Hwho as [-> | (d' & Hin & ->)]; [now left|].
        right. exists d'. split; [now right | reflexivity].
Qed.

(** The label chosen for [w] is the label of a turn of maximal overlap,
    and of minimal endpoint distance when no turn overlaps [w]. *)
Lemma best_speaker_spec (first : string) (ds : list Turn) :
  ds <> [] ->
  exists d, In d ds /\ t_speaker d = best_speaker first ds w /\
    (forall d', In d' ds -> (overlap w d' <= overlap w d)%Q) /\
    ((forall d', In d' ds -> ~ (0 < overlap w d')%Q) ->
     forall d', In d' ds -> (endpoint_dist w d <= endpoint_dist w d')%Q).
Proof.
  intros Hne. unfold best_speaker.
  pose proof (overlap_loop_spec ds 0%Q first) as Hspec.
  destruct (overlap_loop w ds (0%Q, first)) as [m s] eqn:Eloop.
  cbn [fst] in Hspec. destruct Hspec as (Hpos & Hub & Hwho).
  assert (Hlen : Nat.eqb (List.length ds) 0 = false)
    by (destruct ds; [congruence | reflexivity]).
  rewrite Hlen, andb_true_r. cbn [negb].
  destruct (Qeq_bool m 0) eqn:Ez.
  - apply Qeq_bool_iff in Ez.
    destruct (nearest_loop_spec ds (None, s)) as (Hlb & _ & Hnear).
    destruct Hnear as [Hsame | (d & Hin & Hd)].
    + exfalso. destruct ds as [|d0 rest]; [congruence|].
      specialize (Hlb d0 (or_introl eq_refl)). rewrite Hsame in Hlb. exact Hlb.
    + exists d. rewrite Hd in *. cbn [fst snd] in *. repeat split; try assumption.
      * intros d' Hin'. eapply Qle_trans; [apply Hub, Hin'|].
        rewrite Ez. apply overlap_nonneg.
      * intros _ d' Hin'. exact (Hlb d' Hin').
  - destruct Hwho as [Hinit | (d & Hin & Hd)].
    + injection Hinit as -> ->. discriminate.
    + injection Hd as -> ->. exists d. repeat split; try assumption.
      intros Hnone. exfalso. apply (Hnone d Hin).
      apply Qle_lt_or_eq in Hpos. destruct Hpos as [Hlt | Heq]; [exact Hlt|].
      symmetry in Heq. apply Qeq_bool_iff in Heq. congruence.
Qed.

End Aligner.

(** ** The set of speaker labels *)

Section Labels.

Import Diarization.

Lemma insert_label_In (s x : string) (l : list string) :
  In x (insert_label s l) <-> x = s \/ In x l.
Proof.
  induction l as [|y r IH]; cbn [insert_label].
  - cbn. intuition.
  - destruct (String_as_OT.cmp s y) eqn:E.
    + apply String_as_OT.cmp_eq in E. subst y. cbn. intuition.
    + cbn. intuition.
    + cbn [In]. rewrite IH. intuition.
Qed.

Lemma sorted_set_In (x : string) (l : list string) :
  In x (sorted_set l) <-> In x l.
Proof.
  induction l as [|y r IH]; cbn [sorted_set fold_right]; [reflexivity|].
  fold (sorted_set r). rewrite insert_label_In, IH. cbn. intuition.
Qed.

Lemma insert_label_sorted (s : string) (l : list string) :
  StronglySorted String_as_OT.lt l ->
  StronglySorted String_as_OT.lt (insert_label s l).
Proof.
  induction 1 as [|y r Hs IH Hall]; cbn [insert_label].
  - constructor; constructor.
  - destruct (String_as_OT.cmp s y) eqn:E.
    + now constructor.
    + apply String_as_OT.cmp_lt in E.
      constructor; [now constructor|].
      constructor; [exact E|].
      rewrite Forall_forall in *. intros z Hz.
      eapply String_as_OT.lt_trans; [exact E | now apply Hall].
    + constructor; [exact IH|].
      rewrite Forall_forall in *. intros z Hz.
      apply insert_label_In in Hz. destruct Hz as [-> | Hz]; [|now apply Hall].
      apply String_as_OT.cmp_lt. rewrite String_as_OT.cmp_antisym, E. reflexivity.
Qed.

Lemma sorted_set_sorted (l : list string) :
  StronglySorted String_as_OT.lt (sorted_set l).
Proof.
  induction l as [|y r IH]; cbn [sorted_set fold_right]; [constructor|].
  now apply insert_label_sorted.
Qed.

Lemma sorted_NoDup (l : list string) :
  StronglySorted String_as_OT.lt l -> NoDup l.
Proof.
  induction 1 as [|y r Hs IH Hall]; constructor; [|exact IH].
  intros Hin. rewrite Forall_forall in Hall.
  apply (String_as_OT.lt_not_eq _ _ (Hall y Hin)). reflexivity.
Qed.

(** [unique_speakers] holds each label once. *)
Lemma unique_speakers_NoDup (ds : list Turn) : NoDup (unique_speakers ds).
Proof.
  unfold unique_speakers.
  pose proof (sorted_NoDup _ (sorted_set_sorted (map t_speaker ds))) as H.
  destruct (sorted_set (map t_speaker ds)); [|exact H].
  constructor; [intros [] | constructor].
Qed.

Lemma unique_speakers_nonempty (ds : list Turn) :
  In (first_speaker ds) (unique_speakers ds).
Proof.
  unfold first_speaker, unique_speakers.
  destruct (sorted_set (map t_speaker ds)); now left.
Qed.

(** With no turn left, the only label is the default one. *)
Lemma unique_speakers_nil : unique_speakers [] = [DEFAULT_SPEAKER].
Proof. reflexivity. Qed.

(** With a turn left, every label is the label of a turn. *)
Lemma unique_speakers_In (ds : list Turn) (x : string) :
  ds <> [] -> In x (unique_speakers ds) -> In x (map t_speaker ds).
Proof.
  intros Hne. unfold unique_speakers.
  destruct (sorted_set (map t_speaker ds)) as [|y r] eqn:E.
  - exfalso. destruct ds as [|d ds']; [congruence|].
    assert (H : In (t_speaker d) (sorted_set (map t_speaker (d :: ds'))))
      by (apply sorted_set_In; now left).
    rewrite E in H. exact H.
  - rewrite <- E. apply sorted_set_In.
Qed.

End Labels.



(** ** The voice pool allocator *)

Section Allocator.

Import Diarization.

Variable V : Type.
Variable pitch : string -> Q.
Variable vs : Voices V.

Lemma count_gender_cons (g : Gender) (p : string * SpeakerInfo V) (l : list (string * SpeakerInfo V)) :
  count_gender V g (p :: l) =
  ((if Gender_eqb (i_gender (snd p)) g then 1 else 0) + count_gender V g l)%nat.
Proof.
  unfold count_gender. cbn [filter].
  destruct (Gender_eqb (i_gender (snd p)) g); reflexivity.
Qed.

Lemma count_gender_total (l : list (string * SpeakerInfo V)) :
  (count_gender V male l + count_gender V female l = List.length l)%nat.
Proof.
  induction l as [|p l IH]; [reflexivity|].
  rewrite !count_gender_cons. cbn [List.length].
  destruct (i_gender (snd p)); cbn; lia.
Qed.

Lemma count_gender_firstn_le (g : Gender) (n : nat) (l : list (string * SpeakerInfo V)) :
  (count_gender V g (firstn n l) <= count_gender V g l)%nat.
Proof.
  revert n. induction l as [|p l IH]; intros [|n]; cbn [firstn];
    rewrite ?count_gender_cons; try (cbn; lia).
  specialize (IH n). lia.
Qed.

Lemma count_gender_firstn_mono (g : Gender) (i j : nat) (l : list (string * SpeakerInfo V)) :
  (i <= j)%nat ->
  (count_gender V g (firstn i l) <= count_gender V g (firstn j l))%nat.
Proof.
  intros Hij.
  replace (firstn i l) with (firstn i (firstn j l)).
  - apply count_gender_firstn_le.
  - rewrite firstn_firstn. f_equal. lia.
Qed.

Lemma count_gender_firstn_S (g : Gender) (i : nat) (l : list (string * SpeakerInfo V))
    (p : string * SpeakerInfo V) :
  nth_error l i = Some p ->
  count_gender V g (firstn (S i) l) =
  (count_gender V g (firstn i l) + (if Gender_eqb (i_gender (snd p)) g then 1 else 0))%nat.
Proof.
  revert i. induction l as [|q l IH]; intros [|i] H; cbn in H; try discriminate.
  - injection H as ->. cbn [firstn]. rewrite count_gender_cons.
    unfold count_gender. cbn. lia.
  - change (firstn (S (S i)) (q :: l)) with (q :: firstn (S i) l).
    change (firstn (S i) (q :: l)) with (q :: firstn i l).
    rewrite !count_gender_cons, (IH i H). lia.
Qed.

Lemma allocate_total (g : Gender) (c : Cursors) :
  pool_of vs g <> [] -> exists v c', allocate vs g c = Some (v, c').
Proof.
  intros Hne. unfold allocate.
  assert (Hlt : forall n, (n mod List.length (pool_of vs g) < List.length (pool_of vs g))%nat).
  { intros n. apply Nat.mod_upper_bound. destruct (pool_of vs g); cbn; congruence. }
  destruct g.
  - destruct (nth_error (pool_of vs male) _) eqn:E; [eauto|].
    apply nth_error_None in E. specialize (Hlt (male_cursor c)). lia.
  - destruct (nth_error (pool_of vs female) _) eqn:E; [eauto|].
    apply nth_error_None in E. specialize (Hlt (female_cursor c)). lia.
Qed.

Lemma allocate_spec (g : Gender) (c c' : Cursors) (v : V) :
  allocate vs g c = Some (v, c') ->
  nth_error (pool_of vs g) (cursor_of c g mod List.length (pool_of vs g)) = Some v /\
  c' = advance V c [(EmptyString, mkInfo v g)].
Proof.
  unfold allocate, advance, count_gender.
  destruct g; cbn;
    match goal with |- context [nth_error ?p ?i] => destruct (nth_error p i) end;
    intros [= <- <-]; (split; [reflexivity|]); f_equal; lia.
Qed.

Lemma dict_set_fresh (k : string) (v : SpeakerInfo V) (d : list (string * SpeakerInfo V)) :
  ~ In k (map fst d) -> dict_set k v d = d ++ [(k, v)].
Proof.
  induction d as [|[k' v'] r IH]; cbn; [reflexivity|]. intros Hnot.
  destruct (String.eqb_spec k' k); [tauto|]. f_equal. tauto.
Qed.

Lemma advance_app (c : Cursors) (a b : list (string * SpeakerInfo V)) :
  advance V (advance V c a) b = advance V c (a ++ b).
Proof.
  unfold advance, count_gender. cbn. rewrite !filter_app, !length_app.
  f_equal; lia.
Qed.

Lemma advance_label (c : Cursors) (k k' : string) (i : SpeakerInfo V) :
  advance V c ((k, i) :: nil) = advance V c ((k', i) :: nil).
Proof. unfold advance, count_gender. cbn. destruct (i_gender i); reflexivity. Qed.

(** What the speaker loop appends to [speaker_info]: one entry per
    speaker, each being the classification and allocation made from the
    cursors reached after the entries before it. *)
Lemma assign_loop_trace (spks : list string) :
  forall c info c' info',
    NoDup spks ->
    (forall s, In s spks -> ~ In s (map fst info)) ->
    assign_loop pitch vs spks c info = Some (c', info') ->
    exists tr,
      info' = info ++ tr /\ map fst tr = spks /\ c' = advance V c tr /\
      forall i spk si, nth_error tr i = Some (spk, si) ->
        let ci := advance V c (firstn i tr) in
        i_gender si = classify (pitch spk) ci /\
        nth_error (pool_of vs (i_gender si))
          (cursor_of ci (i_gender si) mod List.length (pool_of vs (i_gender si)))
        = Some (i_voice si).
Proof.
  induction spks as [|spk rest IH]; intros c info c' info' Hnd Hfresh Hrun;
    cbn [assign_loop] in Hrun.
  - injection Hrun as <- <-. exists []. rewrite app_nil_r.
    split; [reflexivity | split; [reflexivity | split]].
    + unfold advance, count_gender. cbn. destruct c; cbn. f_equal; lia.
    + intros [|i] ? ? Hnth; discriminate.
  - destruct (allocate vs (classify (pitch spk) c) c) as [[v c1]|] eqn:Ealloc;
      [|discriminate].
    rewrite dict_set_fresh in Hrun by (apply Hfresh; now left).
    inversion Hnd as [|? ? Hnotin Hnd']; subst.
    apply IH in Hrun; [|exact Hnd'|].
    2:{ intros s Hs. rewrite map_app, in_app_iff. cbn.
        intros [Hin | [<- | []]]; [|contradiction].
        apply (Hfresh s); [now right | exact Hin]. }
    destruct Hrun as (tr & -> & Hkeys & -> & Hpos).
    apply allocate_spec in Ealloc. destruct Ealloc as [Hv ->].
    exists ((spk, mkInfo v (classify (pitch spk) c)) :: tr).
    split; [|split; [|split]].
    + now rewrite <- app_assoc.
    + cbn. now rewrite Hkeys.
    + rewrite (advance_label c EmptyString spk), advance_app. reflexivity.
    + destruct i as [|i]; intros spk' si Hnth; cbn in Hnth.
      * injection Hnth as <- <-. cbn [firstn i_gender i_voice].
        assert (Hc : advance V c [] = c).
        { unfold advance, count_gender. cbn. destruct c; cbn. f_equal; lia. }
        rewrite Hc. split; [reflexivity | exact Hv].
      * specialize (Hpos i spk' si Hnth). cbn zeta in Hpos.
        rewrite (advance_label c EmptyString spk), advance_app in Hpos. exact Hpos.
Qed.

(** With two non-empty pools the loop never fails. *)
Lemma assign_loop_total (spks : list string) :
  male_pool vs <> [] -> female_pool vs <> [] ->
  forall c info, exists c' info', assign_loop pitch vs spks c info = Some (c', info').
Proof.
  intros Hm Hf.
  induction spks as [|spk rest IH]; intros c info; cbn [assign_loop]; [eauto|].
  destruct (allocate_total (classify (pitch spk) c) c) as (v & c1 & ->).
  - destruct (classify (pitch spk) c); assumption.
  - apply IH.
Qed.

Lemma assign_voices_trace (spks : list string) (info : list (string * SpeakerInfo V)) :
  NoDup spks ->
  assign_voices pitch vs spks = Some info ->
  map fst info = spks /\
  forall i spk si, nth_error info i = Some (spk, si) ->
    let ci := advance V (mkCursors 0 0) (firstn i info) in
    i_gender si = classify (pitch spk) ci /\
    nth_error (pool_of vs (i_gender si))
      (cursor_of ci (i_gender si) mod List.length (pool_of vs (i_gender si)))
    = Some (i_voice si).
Proof.
  intros Hnd. unfold assign_voices.
  destruct (assign_loop pitch vs spks (mkCursors 0 0) []) as [[c' info']|] eqn:E;
    [|discriminate].
  intros [= <-].
  apply assign_loop_trace in E; [|exact Hnd | intros s _ []].
  destruct E as (tr & -> & Hkeys & _ & Hpos). cbn [app]. split; assumption.
Qed.

End Allocator.

Lemma mod2_even (n : nat) : Nat.eqb (n mod 2) 0 = Nat.even n.
Proof.
  destruct (Nat.even n) eqn:E.
  - apply Nat.even_spec in E. destruct E as [m ->].
    rewrite Nat.mul_comm, Nat.Div0.mod_mul. reflexivity.
  - assert (O : Nat.odd n = true) by (rewrite <- Nat.negb_even, E; reflexivity).
    apply Nat.odd_spec in O. destruct O as [m ->].
    rewrite Nat.add_comm, Nat.mul_comm, Nat.Div0.mod_add. reflexivity.
Qed.

Lemma cursors_after_prefix {V : Type} (i : nat)
    (info : list (string * Diarization.SpeakerInfo V)) :
  (i <= List.length info)%nat ->
  (Diarization.male_cursor (advance V (Diarization.mkCursors 0 0) (firstn i info)) +
   Diarization.female_cursor (advance V (Diarization.mkCursors 0 0) (firstn i info))
   = i)%nat.
Proof.
  intros Hi. cbn. rewrite count_gender_total, length_firstn. lia.
Qed.

(** C5. In the speaker loop, the speaker at position [i] (so that [i]
    speakers were assigned before it) whose pitch estimate is 0 is male when
    [i] is even and female when [i] is odd; a speaker whose pitch estimate is
    not 0 is male when the estimate is below 185 and female otherwise. *)
Theorem gender_classification {V : Type} (pitch : string -> Q)
    (vs : Diarization.Voices V) (spks : list string)
    (info : list (string * Diarization.SpeakerInfo V)) :
  NoDup spks ->
  Diarization.assign_voices pitch vs spks = Some info ->
  forall i spk si, nth_error info i = Some (spk, si) ->
    nth_error spks i = Some spk /\
    ((pitch spk == 0)%Q ->
       Diarization.i_gender si =
       if Nat.even i then Diarization.male else Diarization.female) /\
    (~ (pitch spk == 0)%Q ->
       ((pitch spk < 185)%Q -> Diarization.i_gender si = Diarization.male) /\
       ((185 <= pitch spk)%Q -> Diarization.i_gender si = Diarization.female)).
Proof.
  intros Hnd Hrun i spk si Hnth.
  destruct (assign_voices_trace V pitch vs spks info Hnd Hrun) as [Hkeys Hpos].
  destruct (Hpos i spk si Hnth) as [Hg _]. cbn zeta in Hg.
  assert (Hi : (i <= List.length info)%nat).
  { apply Nat.lt_le_incl. apply nth_error_Some. congruence. }
  split; [|split].
  - rewrite <- Hkeys. apply (map_nth_error fst) in Hnth. exact Hnth.
  - intros Hz. rewrite Hg. unfold Diarization.classify.
    apply Qeq_bool_iff in Hz. rewrite Hz.
    rewrite (cursors_after_prefix i info Hi), mod2_even. reflexivity.
  - intros Hnz. rewrite Hg. unfold Diarization.classify.
    destruct (Qeq_bool (pitch spk) 0) eqn:Ez.
    + apply Qeq_bool_iff in Ez. contradiction.
    + split; intros Hcmp.
      * apply Qltb_lt in Hcmp. rewrite Hcmp. reflexivity.
      * apply Qltb_ge in Hcmp. rewrite Hcmp. reflexivity.
Qed.

(** Three speakers, the first two without a usable pitch, the third at
    210 Hz: male, female, female. *)
Lemma gender_classification_witness :
  let pitch := fun s : string => if String.eqb s "C" then 210%Q else 0%Q in
  let vs := Diarization.mkVoices ["m1"; "m2"]%string ["f1"; "f2"]%string in
  let info := [("A", Diarization.mkInfo "m1" Diarization.male);
               ("B", Diarization.mkInfo "f1" Diarization.female);
               ("C", Diarization.mkInfo "f2" Diarization.female)]%string in
  Diarization.assign_voices pitch vs ["A"; "B"; "C"]%string = Some info /\
  nth_error ["A"; "B"; "C"]%string 1 = Some "B"%string.
Proof.
  cbv zeta. split; [reflexivity|].
  refine (proj1 (gender_classification
    (fun s : string => if String.eqb s "C" then 210%Q else 0%Q)
    (Diarization.mkVoices ["m1"; "m2"]%string ["f1"; "f2"]%string)
    ["A"; "B"; "C"]%string _ _ _ 1%nat "B"%string
    (Diarization.mkInfo "f1"%string Diarization.female) _)).
  - repeat constructor; cbn; intuition discriminate.
  - reflexivity.
  - reflexivity.
Defined.

(** C4. Voice allocation is round-robin per gender: with two non-empty
    pools every speaker receives a voice, the speaker that is the [k]-th of
    its gender (counting from 0) receives the entry [k mod len(pool)] of that
    gender's pool; two speakers of one gender before the pool is exhausted
    receive different entries (different voice ids when the pool has no
    repetition), and the speaker [len(pool)] places later in its gender
    receives the same voice again. *)
Theorem round_robin_allocation {V : Type} (pitch : string -> Q)
    (vs : Diarization.Voices V) (spks : list string) :
  NoDup spks ->
  Diarization.male_pool vs <> [] -> Diarization.female_pool vs <> [] ->
  exists info,
    Diarization.assign_voices pitch vs spks = Some info /\
    map fst info = spks /\
    let rank i g := count_gender V g (firstn i info) in
    let pool g := Diarization.pool_of vs g in
    (forall i spk si, nth_error info i = Some (spk, si) ->
       nth_error (pool (Diarization.i_gender si))
         (rank i (Diarization.i_gender si) mod List.length (pool (Diarization.i_gender si)))
       = Some (Diarization.i_voice si)) /\
    (forall i j spk_i si spk_j sj,
       (i < j)%nat ->
       nth_error info i = Some (spk_i, si) -> nth_error info j = Some (spk_j, sj) ->
       Diarization.i_gender si = Diarization.i_gender sj ->
       let g := Diarization.i_gender sj in
       (rank j g < List.length (pool g))%nat ->
       (rank i g mod List.length (pool g) <> rank j g mod List.length (pool g))%nat /\
       (NoDup (pool g) -> Diarization.i_voice si <> Diarization.i_voice sj)) /\
    (forall i j spk_i si spk_j sj,
       nth_error info i = Some (spk_i, si) -> nth_error info j = Some (spk_j, sj) ->
       Diarization.i_gender si = Diarization.i_gender sj ->
       let g := Diarization.i_gender sj in
       rank j g = (rank i g + List.length (pool g))%nat ->
       Diarization.i_voice sj = Diarization.i_voice si).
Proof.
  intros Hnd Hm Hf.
  destruct (assign_loop_total V pitch vs spks Hm Hf (Diarization.mkCursors 0 0) [])
    as (c' & info & Hloop).
  assert (Hrun : Diarization.assign_voices pitch vs spks = Some info)
    by (unfold Diarization.assign_voices; rewrite Hloop; reflexivity).
  destruct (assign_voices_trace V pitch vs spks info Hnd Hrun) as [Hkeys Hpos].
  exists info. split; [exact Hrun|]. split; [exact Hkeys|]. cbv zeta.
  assert (Hvoice : forall i spk si, nth_error info i = Some (spk, si) ->
    nth_error (Diarization.pool_of vs (Diarization.i_gender si))
      (count_gender V (Diarization.i_gender si) (firstn i info)
       mod List.length (Diarization.pool_of vs (Diarization.i_gender si)))
    = Some (Diarization.i_voice si)).
  { intros i spk si Hnth. destruct (Hpos i spk si Hnth) as [_ Hv].
    cbn zeta in Hv. destruct (Diarization.i_gender si); exact Hv. }
  split; [exact Hvoice|]. split.
  - intros i j spk_i si spk_j sj Hij Hi Hj Hg Hroom.
    assert (Hlt : (count_gender V (Diarization.i_gender sj) (firstn i info)
                   < count_gender V (Diarization.i_gender sj) (firstn j info))%nat).
    { pose proof (count_gender_firstn_S V (Diarization.i_gender sj) i info _ Hi) as HS.
      cbn [snd] in HS. rewrite Hg in HS.
      replace (Diarization.Gender_eqb (Diarization.i_gender sj) (Diarization.i_gender sj))
        with true in HS by (destruct (Diarization.i_gender sj); reflexivity).
      pose proof (count_gender_firstn_mono V (Diarization.i_gender sj) (S i) j info Hij).
      lia. }
    assert (Hidx : (count_gender V (Diarization.i_gender sj) (firstn i info)
                   mod List.length (Diarization.pool_of vs (Diarization.i_gender sj))
                   <> count_gender V (Diarization.i_gender sj) (firstn j info)
                   mod List.length (Diarization.pool_of vs (Diarization.i_gender sj)))%nat).
    { rewrite !Nat.mod_small by lia. lia. }
    split; [exact Hidx|].
    intros Hnodup Heq.
    pose proof (Hvoice i spk_i si Hi) as Hvi. pose proof (Hvoice j spk_j sj Hj) as Hvj.
    rewrite Hg in Hvi. rewrite Heq, <- Hvj in Hvi.
    apply Hidx. eapply (proj1 (NoDup_nth_error _) Hnodup); [|exact Hvi].
    apply nth_error_Some. rewrite Hvi, Hvj. discriminate.
  - intros i j spk_i si spk_j sj Hi Hj Hg Hcycle.
    pose proof (Hvoice i spk_i si Hi) as Hvi. pose proof (Hvoice j spk_j sj Hj) as Hvj.
    rewrite Hg in Hvi. rewrite Hcycle in Hvj.
    assert (Hnz : List.length (Diarization.pool_of vs (Diarization.i_gender sj)) <> 0%nat).
    { destruct (Diarization.i_gender sj); cbn;
        [destruct (Diarization.male_pool vs) | destruct (Diarization.female_pool vs)];
        cbn; congruence. }
    rewrite <- (Nat.mul_1_l (List.length _)) in Hvj at 1.
    rewrite Nat.Div0.mod_add in Hvj. congruence.
Qed.

(** A male pool of size 3 and four speakers below 185 Hz: the fourth
    receives the voice of the first. *)
Lemma round_robin_allocation_witness :
  let vs := Diarization.mkVoices ["v0"; "v1"; "v2"]%string ["w0"]%string in
  Diarization.assign_voices (fun _ => 120%Q) vs ["S0"; "S1"; "S2"; "S3"]%string =
    Some [("S0", Diarization.mkInfo "v0" Diarization.male);
          ("S1", Diarization.mkInfo "v1" Diarization.male);
          ("S2", Diarization.mkInfo "v2" Diarization.male);
          ("S3", Diarization.mkInfo "v0" Diarization.male)]%string /\
  exists info,
    Diarization.assign_voices (fun _ => 120%Q) vs ["S0"; "S1"; "S2"; "S3"]%string
      = Some info /\
    map fst info = ["S0"; "S1"; "S2"; "S3"]%string.
Proof.
  cbv zeta. split; [reflexivity|].
  destruct (round_robin_allocation (fun _ => 120%Q)
              (Diarization.mkVoices ["v0"; "v1"; "v2"]%string ["w0"]%string)
              ["S0"; "S1"; "S2"; "S3"]%string) as (info & Hrun & Hkeys & _).
  - repeat constructor; cbn; intuition discriminate.
  - discriminate.
  - discriminate.
  - exists info. split; assumption.
Defined.

(** ** The attribution service *)

Section Service.

Import Diarization.

Variable V : Type.

Lemma dict_get_In (k : string) (info : list (string * SpeakerInfo V)) :
  In k (map fst info) -> exists v, dict_get k info = Some v.
Proof.
  induction info as [|[k' v'] r IH]; cbn; [intros []|].
  intros [-> | Hin].
  - rewrite String.eqb_refl. eauto.
  - destruct (String.eqb k' k); eauto.
Qed.


Lemma best_speaker_nil (first : string) (w : WhisperSegment) :
  best_speaker first [] w = first.
Proof. reflexivity. Qed.

End Service.



(** ** The duration aligner *)

Lemma clamp_ratio_spec (ratio : Q) :
  (0.5 <= Dub.clamp_ratio ratio)%Q /\ (Dub.clamp_ratio ratio <= 2.0)%Q /\
  ((ratio < 0.5)%Q -> Dub.clamp_ratio ratio = 0.5%Q) /\
  ((0.5 <= ratio)%Q -> (ratio <= 2.0)%Q -> Dub.clamp_ratio ratio = ratio) /\
  ((2.0 < ratio)%Q -> Dub.clamp_ratio ratio = 2.0%Q).
Proof.
  unfold Dub.clamp_ratio.
  destruct (Py.Qltb ratio 0.5) eqn:Elo.
  - apply Qltb_lt in Elo.
    replace (Py.Qltb 2.0 0.5) with false by reflexivity.
    repeat split; intros; try reflexivity; try lra.
  - apply Qltb_ge in Elo.
    destruct (Py.Qltb 2.0 ratio) eqn:Ehi.
    + apply Qltb_lt in Ehi. repeat split; intros; try reflexivity; try lra.
    + apply Qltb_ge in Ehi. repeat split; intros; try reflexivity; try lra.
Qed.

(** C6. With [ratio = clip_duration / target_duration], a clip whose ratio
    lies in [0.95, 1.05] is returned unchanged and the stretch utility is
    not run; otherwise the stretch utility is run once, on that clip, with
    the ratio clamped to [0.5, 2.0], and its result is the clip returned. *)
Theorem duration_alignment {Audio : Type} (duration : Audio -> Z)
    (atempo : Q -> Audio -> option Audio) (audio_seg : Audio)
    (target_duration : Z) (l : Dub.log) :
  0 < target_duration ->
  let ratio := (inject_Z (duration audio_seg) / inject_Z target_duration)%Q in
  ((0.95 <= ratio)%Q -> (ratio <= 1.05)%Q ->
     Dub.fit Audio duration atempo audio_seg target_duration l = (l, Some audio_seg)) /\
  (~ ((0.95 <= ratio)%Q /\ (ratio <= 1.05)%Q) ->
     exists r,
       Dub.fit Audio duration atempo audio_seg target_duration l
         = (l ++ [Dub.Atempo r], atempo r audio_seg) /\
       (0.5 <= r)%Q /\ (r <= 2.0)%Q /\
       ((ratio < 0.5)%Q -> r = 0.5%Q) /\
       ((0.5 <= ratio)%Q -> (ratio <= 2.0)%Q -> r = ratio) /\
       ((2.0 < ratio)%Q -> r = 2.0%Q)).
Proof.
  intros _ ratio. unfold Dub.fit, Dub.stretch_audio, Dub.needs_stretch.
  fold ratio. split.
  - intros Hlo Hhi.
    assert (E1 : Py.Qltb 1.05 ratio = false) by (apply Qltb_ge; exact Hhi).
    assert (E2 : Py.Qltb ratio 0.95 = false) by (apply Qltb_ge; exact Hlo).
    rewrite E1, E2. reflexivity.
  - intros Hout.
    assert (E : (Py.Qltb 1.05 ratio || Py.Qltb ratio 0.95)%bool = true).
    { destruct (Py.Qltb 1.05 ratio) eqn:E1; [reflexivity|].
      destruct (Py.Qltb ratio 0.95) eqn:E2; [reflexivity|].
      exfalso. apply Hout. split; [apply Qltb_ge, E2 | apply Qltb_ge, E1]. }
    rewrite E. exists (Dub.clamp_ratio ratio). split; [reflexivity|].
    exact (clamp_ratio_spec ratio).
Qed.

(** The three cases of the specification for a target of 1000 ms, with
    clips of 1030, 1500 and 3000 ms: unchanged, stretched by 1.5, stretched
    by the clamped 2.0. *)
Lemma duration_alignment_witness :
  let duration := fun a : Z => a in
  let atempo := fun (r : Q) (a : Z) => Some (Py.int_of_float (inject_Z a / r)) in
  Dub.fit Z duration atempo 1030 1000 [] = ([], Some 1030) /\
  Dub.fit Z duration atempo 1500 1000 [] = ([Dub.Atempo (1500 # 1000)], Some 1000) /\
  Dub.fit Z duration atempo 3000 1000 [] = ([Dub.Atempo 2.0], Some 1500) /\
  (1500 # 1000 == 1.5)%Q.
Proof.
  cbv zeta. split; [|split; [reflexivity | split; reflexivity]].
  apply (duration_alignment (fun a : Z => a)
           (fun (r : Q) (a : Z) => Some (Py.int_of_float (inject_Z a / r)))
           1030 1000 []).
  - reflexivity.
  - discriminate.
  - discriminate.
Defined.

(** ** The voice of a segment *)

(** C10. The voice of a segment is the default voice when the segment has
    no voice under either key, and when the voice it supplies ([voice_id],
    else [voiceId]) has fewer than 10 characters or contains a space;
    otherwise it is the supplied voice. *)
Theorem segment_voice_sanitized (seg : Dub.Segment) :
  (Dub.s_voice_id seg = None -> Dub.s_voiceId seg = None ->
     Dub.segment_voice seg = Dub.default_voice) /\
  (forall v, Py.or_else (Dub.s_voice_id seg) (Dub.s_voiceId seg) = Some v ->
     (Py.len v < 10 \/ Py.contains " " v = true) ->
     Dub.segment_voice seg = Dub.default_voice) /\
  (forall v, Py.or_else (Dub.s_voice_id seg) (Dub.s_voiceId seg) = Some v ->
     10 <= Py.len v -> Py.contains " " v = false ->
     Dub.segment_voice seg = v).
Proof.
  unfold Dub.segment_voice, Dub.supplied_voice. split; [|split].
  - intros -> ->. reflexivity.
  - intros v -> Hbad. unfold Py.or_else.
    destruct (Py.truthy v) eqn:Et.
    + unfold Dub.invalid_voice. rewrite Et. cbn [negb orb].
      destruct Hbad as [Hlen | Hsp].
      * apply Z.ltb_lt in Hlen. rewrite Hlen. reflexivity.
      * rewrite Hsp, orb_true_r. reflexivity.
    + reflexivity.
  - intros v -> Hlen Hsp. unfold Py.or_else.
    assert (Et : Py.truthy v = true).
    { destruct v; [cbn in Hlen; lia | reflexivity]. }
    rewrite Et. unfold Dub.invalid_voice. rewrite Et, Hsp.
    apply Z.ltb_ge in Hlen. rewrite Hlen. reflexivity.
Qed.

(** A short id under [voice_id] is replaced although [voiceId] holds a
    well-formed one; a well-formed id under [voiceId] alone is kept. *)
Lemma segment_voice_sanitized_witness :
  Dub.segment_voice
    (Dub.mkSegment 0 1 "hi" (Some "Brian"%string) (Some "pNInz6obpgDQGcFmaJgB"%string))
    = Dub.default_voice /\
  Dub.segment_voice (Dub.mkSegment 0 1 "hi" None (Some "pNInz6obpgDQGcFmaJgB"%string))
    = "pNInz6obpgDQGcFmaJgB"%string.
Proof.
  split.
  - apply (proj1 (proj2 (segment_voice_sanitized
      (Dub.mkSegment 0 1 "hi" (Some "Brian"%string)
         (Some "pNInz6obpgDQGcFmaJgB"%string)))) "Brian"%string).
    + reflexivity.
    + left. reflexivity.
  - apply (proj2 (proj2 (segment_voice_sanitized
      (Dub.mkSegment 0 1 "hi" None (Some "pNInz6obpgDQGcFmaJgB"%string))))
      "pNInz6obpgDQGcFmaJgB"%string).
    + reflexivity.
    + discriminate.
    + reflexivity.
Defined.

(** ** The audio aggregated for a speaker *)

(** C7. The aggregation loop tests [dur > 20] after a whole turn was
    added, and does not cut the audio: for a speaker with one turn of 21 s
    in a file of 21 s, the aggregated audio lasts 21 s; with a turn of 19 s
    followed by one of 30 s it lasts 49 s. *)
Theorem aggregate_exceeds_20_seconds :
  let y21 := repeat 0 (Z.to_nat (21 * Diarization.sr)) in
  let y49 := repeat 0 (Z.to_nat (49 * Diarization.sr)) in
  let one := [Diarization.mkTurn 0 21 "SPEAKER_00"] in
  let two := [Diarization.mkTurn 0 19 "SPEAKER_00";
              Diarization.mkTurn 19 49 "SPEAKER_00"] in
  (Diarization.seconds_of Z (Diarization.spk_audio Z "SPEAKER_00" y21 one) == 21)%Q /\
  (snd (Diarization.aggregate Z "SPEAKER_00" y21 one ([], 0%Q)) == 21)%Q /\
  (Diarization.seconds_of Z (Diarization.spk_audio Z "SPEAKER_00" y49 two) == 49)%Q /\
  (20 < Diarization.seconds_of Z (Diarization.spk_audio Z "SPEAKER_00" y21 one))%Q.
Proof.
  cbv zeta. split; [|split; [|split]]; vm_compute; reflexivity.
Qed.

(** ** The voice catalog *)

Section CatalogFacts.

Import Diarization Catalog.

Lemma load_keeps_pools_nonempty (file : CatalogFile) (vs : Voices json) :
  male_pool vs <> [] -> female_pool vs <> [] ->
  male_pool (load_dynamic_voices file vs) <> [] /\
  female_pool (load_dynamic_voices file vs) <> [].
Proof.
  intros Hm Hf. unfold load_dynamic_voices.
  destruct (read_catalog file) as [[new_male new_female]|]; [|now split].
  destruct new_male as [|m ms], new_female as [|f fs]; cbn; split;
    try assumption; discriminate.
Qed.

(** Each pool after a load is the pool before it, or a non-empty list read
    from the catalog. *)
Lemma load_replaces_by_nonempty (file : CatalogFile) (vs : Voices json) (g : Gender) :
  pool_of (load_dynamic_voices file vs) g = pool_of vs g \/
  exists new_male new_female,
    read_catalog file = Some (new_male, new_female) /\
    pool_of (load_dynamic_voices file vs) g
      = match g with male => new_male | female => new_female end /\
    match g with male => new_male | female => new_female end <> [].
Proof.
  unfold load_dynamic_voices.
  destruct (read_catalog file) as [[new_male new_female]|]; [|now left].
  destruct g, new_male as [|m ms], new_female as [|f fs]; cbn;
    try (now left);
    right; eexists _, _; (split; [reflexivity|]); split;
      try reflexivity; discriminate.
Qed.

End CatalogFacts.

(** C9. Whatever is found at the catalog path, both pools of [VOICES]
    are non-empty after the load and the speaker loop never fails on them;
    a pool differs from the default one only when the catalog gave a
    non-empty list for that gender; and a missing file, an unreadable or
    unparsable file, content that is no dictionary, a missing or empty
    voice list, and any exception while the list is scanned leave the
    default pools in place. *)
Theorem voice_pools_never_empty (file : Catalog.CatalogFile) :
  (Diarization.male_pool (Catalog.VOICES file) <> [] /\
   Diarization.female_pool (Catalog.VOICES file) <> []) /\
  (forall pitch spks, exists c info,
     Diarization.assign_loop pitch (Catalog.VOICES file) spks
       (Diarization.mkCursors 0 0) [] = Some (c, info)) /\
  (forall g,
     Diarization.pool_of (Catalog.VOICES file) g
       = Diarization.pool_of Catalog.DEFAULT_VOICES g \/
     exists new_male new_female,
       Catalog.read_catalog file = Some (new_male, new_female) /\
       Diarization.pool_of (Catalog.VOICES file) g
         = match g with
           | Diarization.male => new_male
           | Diarization.female => new_female
           end /\
       match g with
       | Diarization.male => new_male
       | Diarization.female => new_female
       end <> []) /\
  (Catalog.read_catalog file = None -> Catalog.VOICES file = Catalog.DEFAULT_VOICES) /\
  Catalog.read_catalog Catalog.Missing = None /\
  Catalog.read_catalog Catalog.Unreadable = None /\
  (forall data, Catalog.get data "voices" = None ->
     Catalog.read_catalog (Catalog.Content data) = None) /\
  (forall fields, Catalog.lookup "voices" fields = None ->
     Catalog.read_catalog (Catalog.Content (Catalog.JObj fields)) = None) /\
  (forall fields v, Catalog.lookup "voices" fields = Some v ->
     Catalog.truthy v = false ->
     Catalog.read_catalog (Catalog.Content (Catalog.JObj fields)) = None) /\
  (forall fields before item rest,
     Catalog.lookup "voices" fields = Some (Catalog.JArr (before ++ item :: rest)) ->
     (forall acc, Catalog.scan_item item acc = None) ->
     Catalog.read_catalog (Catalog.Content (Catalog.JObj fields)) = None).
Proof.
  assert (Hne : Diarization.male_pool (Catalog.VOICES file) <> [] /\
                Diarization.female_pool (Catalog.VOICES file) <> []).
  { apply load_keeps_pools_nonempty; discriminate. }
  split; [exact Hne|]. split.
  { intros pitch spks. destruct Hne as [Hm Hf].
    apply (assign_loop_total Catalog.json pitch (Catalog.VOICES file) spks Hm Hf). }
  split; [intros g; apply load_replaces_by_nonempty|].
  split.
  { unfold Catalog.VOICES, Catalog.load_dynamic_voices. intros ->. reflexivity. }
  split; [reflexivity|]. split; [reflexivity|]. split.
  { intros data H. cbn. rewrite H. reflexivity. }
  split.
  { intros fields H. cbn. rewrite H. reflexivity. }
  split.
  { intros fields v H Hv. cbn. rewrite H, Hv. reflexivity. }
  intros fields before item rest H Hraise. cbn. rewrite H.
  destruct (negb (Catalog.truthy (Catalog.JArr (before ++ item :: rest)))); [reflexivity|].
  clear H. generalize (@nil Catalog.json, @nil Catalog.json).
  induction before as [|b before IH]; intros acc; cbn [app Catalog.scan].
  - rewrite Hraise. reflexivity.
  - destruct (Catalog.scan_item b acc); [apply IH | reflexivity].
Qed.

(** A catalog with one male voice and an entry without gender: the male
    pool is replaced, the female pool is the default one. *)
Lemma voice_pools_never_empty_witness :
  let entry (id gender : string) :=
    Catalog.JObj [("voice_id"%string, Catalog.JStr id);
                  ("labels"%string, Catalog.JObj [("gender"%string, Catalog.JStr gender)])] in
  let file := Catalog.Content (Catalog.JObj
    [("voices"%string, Catalog.JArr [entry "abcdefghijkl"%string "Male"%string;
                                      entry "mnopqrstuvwx"%string EmptyString])]) in
  Catalog.VOICES file =
    Diarization.mkVoices [Catalog.JStr "abcdefghijkl"%string]
      (Diarization.female_pool Catalog.DEFAULT_VOICES) /\
  Catalog.VOICES Catalog.Missing = Catalog.DEFAULT_VOICES /\
  Catalog.VOICES (Catalog.Content (Catalog.JArr [])) = Catalog.DEFAULT_VOICES.
Proof.
  cbv zeta. split; [reflexivity|]. split.
  - apply (proj1 (proj2 (proj2 (proj2 (voice_pools_never_empty Catalog.Missing))))).
    reflexivity.
  - apply (proj1 (proj2 (proj2 (proj2
      (voice_pools_never_empty (Catalog.Content (Catalog.JArr []))))))).
    reflexivity.
Defined.

(** ** The synthesis provider chain *)

(** C2. [raise ValueError("VOICE_NOT_FOUND")] stands inside the [try] of
    the attempt loop, so its [except Exception] handler catches it: a 404
    answer on the first or second attempt is followed by a new request for
    the same voice, and only a 404 on the third attempt leaves
    [generate_tts].  With a provider that answers 404 once and 200 then,
    the unknown voice is requested twice and the default voice never; with
    a provider that knows only the default voice, the unknown voice is
    requested three times before the default one; an unknown default voice
    is requested three times before the fallback. *)
Theorem unknown_voice_is_retried :
  let adam := "pNInz6obpgDQGcFmaJgB"%string in
  let once := fun (n : nat) (_ _ : string) =>
    if Nat.eqb n 0 then Dub.Http Z 404 None else Dub.Http Z 200 (Some 1000) in
  let only_default := fun (_ : nat) (voice _ : string) =>
    if String.eqb voice Dub.default_voice
    then Dub.Http Z 200 (Some 1000) else Dub.Http Z 404 None in
  let never := fun (_ : nat) (_ _ : string) => Dub.Http Z 404 None in
  Dub.primary Z true once "hello" adam []
    = ([Dub.Post adam; Dub.Sleep; Dub.Post adam], Dub.Wrote Z (Some 1000)) /\
  Dub.primary Z true only_default "hello" adam []
    = ([Dub.Post adam; Dub.Sleep; Dub.Post adam; Dub.Sleep; Dub.Post adam;
        Dub.Post Dub.default_voice], Dub.Wrote Z (Some 1000)) /\
  Dub.primary Z true never "hello" Dub.default_voice []
    = ([Dub.Post Dub.default_voice; Dub.Sleep; Dub.Post Dub.default_voice; Dub.Sleep;
        Dub.Post Dub.default_voice],
       Dub.Raised Z (Dub.ValueError Dub.VOICE_NOT_FOUND)).
Proof.
  cbv zeta. repeat split.
Qed.

(** ** The track assembler *)

Section Assembler.

Variable Audio : Type.
Variable duration : Audio -> Z.
Variable api_key : bool.
Variable eleven : nat -> string -> string -> Dub.Response Audio.
Variable edge_tts : string -> option string -> option Audio.
Variable atempo : Q -> Audio -> option Audio.
Variable lang_code : string.

Lemma track_len_app (a b : list (Dub.Piece Audio)) :
  Dub.track_len Audio duration (a ++ b)
  = Dub.track_len Audio duration a + Dub.track_len Audio duration b.
Proof.
  unfold Dub.track_len.
  induction a as [|p a IH]; cbn [app fold_right]; [reflexivity|].
  rewrite IH. lia.
Qed.

(** A segment for which both providers fail adds its target duration of
    silence to the track, and nothing else. *)
Lemma all_failed_appends_target_silence (seg : Dub.Segment)
    (track track' : list (Dub.Piece Audio)) (l l' : Dub.log) :
  Dub.step Audio duration api_key eleven edge_tts atempo lang_code seg (track, l)
    = ((track', l'), Dub.AllFailed) ->
  let target_duration :=
    Py.int_of_float (Dub.s_end seg * 1000) - Py.int_of_float (Dub.s_start seg * 1000) in
  track' = track ++ [Dub.Silent Audio target_duration] /\
  Dub.track_len Audio duration track'
    = Dub.track_len Audio duration track + target_duration.
Proof.
  intros Hstep target_duration.
  assert (Happ : track' = track ++ [Dub.Silent Audio target_duration]).
  { unfold Dub.step in Hstep. fold target_duration in Hstep.
    repeat match type of Hstep with
    | (if ?b then _ else _) = _ => destruct b
    | match ?x with _ => _ end = _ => destruct x
    | (_, _) = (_, _) => inversion Hstep; clear Hstep
    end; try discriminate; subst; reflexivity. }
  split; [exact Happ|].
  rewrite Happ, track_len_app. cbn. lia.
Qed.

End Assembler.

(** C1. The handler of a total failure holds only
    [combined_audio += AudioSegment.silent(duration=target_duration)]; the
    gap test of lines 224-225 and 244-245 is missing there.  For the
    segments [0,1], [1,2], [3,4] with both providers failing on the third,
    the track is two clips and 1000 ms of silence, 3000 ms long, and the
    silence lies at [2000, 3000) and not in the slot of the segment; when
    the fallback provider succeeds on the third segment instead, the gap is
    filled and the track is 4000 ms long. *)
Theorem failed_segment_gets_no_gap_silence :
  let seg := fun (s e : Q) (t : string) => Dub.mkSegment s e t None None in
  let segments := [seg 0%Q 1%Q "a"%string; seg 1%Q 2%Q "b"%string; seg 3%Q 4%Q "c"%string] in
  let duration := fun a : Z => a in
  let eleven := fun (_ : nat) (_ text : string) =>
    if String.eqb text "c" then Dub.Http Z 500 None else Dub.Http Z 200 (Some 1000) in
  let atempo := fun (_ : Q) (a : Z) => Some a in
  let edge_fails := fun (_ : string) (_ : option string) => @None Z in
  let edge_works := fun (_ : string) (_ : option string) => Some 1000 in
  let failed := Dub.main Z duration true eleven edge_fails atempo "en" segments in
  let dubbed := Dub.main Z duration true eleven edge_works atempo "en" segments in
  fst (fst failed)
    = [Dub.Sound Z 1000; Dub.Sound Z 1000; Dub.Silent Z 1000] /\
  snd failed = [Dub.ViaPrimary; Dub.ViaPrimary; Dub.AllFailed] /\
  Dub.track_len Z duration (fst (fst failed)) = 3000 /\
  fst (fst dubbed)
    = [Dub.Sound Z 1000; Dub.Sound Z 1000; Dub.Silent Z 1000; Dub.Sound Z 1000] /\
  snd dubbed = [Dub.ViaPrimary; Dub.ViaPrimary; Dub.ViaFallback] /\
  Dub.track_len Z duration (fst (fst dubbed)) = 4000.
Proof.
  cbv zeta. repeat split.
Qed.

(** * Further properties of the diarization worker *)

Section TieBreak.

Import Diarization.

Variable w : WhisperSegment.



End TieBreak.



Section Enrichment.

Import Diarization.

Variable V : Type.

Lemma dict_get_nth (k : string) (info : list (string * SpeakerInfo V)) (v : SpeakerInfo V) :
  dict_get k info = Some v -> exists i, nth_error info i = Some (k, v).
Proof.
  induction info as [|[k' v'] r IH]; cbn; [discriminate|].
  destruct (String.eqb_spec k' k) as [-> | Hne].
  - intros [= ->]. exists 0%nat. reflexivity.
  - intros H. destruct (IH H) as [i Hi]. exists (S i). exact Hi.
Qed.

(** Every label given by the aligner is a key of [speaker_info]. *)
Lemma attribute_labels_known (ds : list Turn) (ws : list WhisperSegment)
    (r : WhisperSegment * string) :
  In r (attribute ds ws) -> In (snd r) (unique_speakers ds).
Proof.
  unfold attribute. intros Hin. apply in_map_iff in Hin.
  destruct Hin as (w & <- & _). cbn [snd].
  destruct ds as [|d0 rest] eqn:Eds.
  - rewrite best_speaker_nil. apply unique_speakers_nonempty.
  - rewrite <- Eds.
    assert (Hne : ds <> []) by (rewrite Eds; discriminate).
    destruct (best_speaker_spec w (first_speaker ds) ds Hne) as (d & Hin & Hd & _).
    rewrite <- Hd. unfold unique_speakers.
    assert (Hs : In (t_speaker d) (sorted_set (map t_speaker ds)))
      by (apply sorted_set_In, in_map, Hin).
    destruct (sorted_set (map t_speaker ds)); [contradiction | exact Hs].
Qed.

(** The entry of an enriched segment is the entry of its own label: the
    default of [speaker_info.get] is not used. *)
Lemma enrich_all_entries (first : string) (info : list (string * SpeakerInfo V))
    (rs : list (WhisperSegment * string)) :
  (forall r, In r rs -> In (snd r) (map fst info)) ->
  forall es, enrich_all first info rs = Some es ->
  forall e, In e es ->
    dict_get (speaker_id e) info = Some (mkInfo (voice_id e) (gender e)).
Proof.
  induction rs as [|r rest IH]; intros Hkeys es Hrun e He; cbn [enrich_all] in Hrun.
  - injection Hrun as <-. destruct He.
  - destruct (enrich first info r) as [e0|] eqn:E0; [|discriminate].
    destruct (enrich_all first info rest) as [es0|] eqn:Erest; [|discriminate].
    injection Hrun as <-. destruct He as [<- | He].
    + unfold enrich in E0.
      destruct (dict_get first info) as [dflt|]; [|discriminate].
      destruct (dict_get_In V (snd r) info (Hkeys r (or_introl eq_refl))) as [i Hi].
      rewrite Hi in E0. injection E0 as <-. cbn. rewrite Hi. destruct i; reflexivity.
    + apply (IH (fun r' Hr' => Hkeys r' (or_intror Hr')) es0 eq_refl e He).
Qed.

(** A successful request comes with the dictionary [speaker_info] that
    the speaker loop built, and each segment carries the entry of its
    label. *)
Lemma diarize_entries (sample : Type) (get_pitch : list sample -> Q)
    (VOICES : Voices V) (turns : list Turn) (y_full : list sample)
    (ws : list WhisperSegment) (results : list (EnhancedSegment V)) :
  diarize get_pitch VOICES turns y_full ws = Some results ->
  exists info,
    assign_voices (pitch_of sample get_pitch y_full (diar_segments_of turns)) VOICES
      (unique_speakers (diar_segments_of turns)) = Some info /\
    forall e, In e results ->
      dict_get (speaker_id e) info = Some (mkInfo (voice_id e) (gender e)).
Proof.
  unfold diarize. set (ds := diar_segments_of turns).
  destruct (assign_voices _ VOICES (unique_speakers ds)) as [info|] eqn:Hrun;
    [|discriminate].
  intros Hen. exists info. split; [reflexivity|].
  destruct (assign_voices_trace V _ VOICES _ info (unique_speakers_NoDup ds) Hrun)
    as [Hkeys _].
  apply (enrich_all_entries (first_speaker ds) info (attribute ds ws)); [|exact Hen].
  intros r Hr. rewrite Hkeys. exact (attribute_labels_known ds ws r Hr).
Qed.

End Enrichment.

(** X2. Within one answer, segments attributed to the same speaker carry
    the same voice and the same gender. *)
Theorem same_speaker_same_voice {sample V : Type} (get_pitch : list sample -> Q)
    (VOICES : Diarization.Voices V) (turns : list Diarization.Turn)
    (y_full : list sample) (ws : list Diarization.WhisperSegment)
    (results : list (Diarization.EnhancedSegment V)) :
  Diarization.diarize get_pitch VOICES turns y_full ws = Some results ->
  forall e1 e2, In e1 results -> In e2 results ->
    Diarization.speaker_id e1 = Diarization.speaker_id e2 ->
    Diarization.voice_id e1 = Diarization.voice_id e2 /\
    Diarization.gender e1 = Diarization.gender e2.
Proof.
  intros Hrun e1 e2 H1 H2 Hsame.
  destruct (diarize_entries V sample get_pitch VOICES turns y_full ws results Hrun)
    as (info & _ & Hentry).
  pose proof (Hentry e1 H1) as E1. pose proof (Hentry e2 H2) as E2.
  rewrite Hsame, E2 in E1. injection E1 as -> ->. split; reflexivity.
Qed.

(** X3. The voice of every segment of an answer is an entry of the pool
    of the gender the segment carries. *)
Theorem voice_drawn_from_gender_pool {sample V : Type} (get_pitch : list sample -> Q)
    (VOICES : Diarization.Voices V) (turns : list Diarization.Turn)
    (y_full : list sample) (ws : list Diarization.WhisperSegment)
    (results : list (Diarization.EnhancedSegment V)) :
  Diarization.diarize get_pitch VOICES turns y_full ws = Some results ->
  forall e, In e results ->
    In (Diarization.voice_id e) (Diarization.pool_of VOICES (Diarization.gender e)).
Proof.
  intros Hrun e He.
  destruct (diarize_entries V sample get_pitch VOICES turns y_full ws results Hrun)
    as (info & Hassign & Hentry).
  destruct (dict_get_nth V _ _ _ (Hentry e He)) as [i Hi].
  destruct (assign_voices_trace V _ VOICES _ info
              (unique_speakers_NoDup (Diarization.diar_segments_of turns)) Hassign)
    as [_ Hpos].
  destruct (Hpos i _ _ Hi) as [_ Hv]. cbn [Diarization.i_gender Diarization.i_voice] in Hv.
  apply nth_error_In in Hv. exact Hv.
Qed.

(** Two speakers without usable pitch and three segments: both segments
    of speaker A carry the first male voice. *)
Lemma same_speaker_same_voice_witness :
  let VOICES := Diarization.mkVoices ["m1"; "m2"]%string ["f1"]%string in
  let turns := [Diarization.mkTurn 0 2 "A"; Diarization.mkTurn 2 4 "B";
                Diarization.mkTurn 4 6 "A"] in
  let ws := [Diarization.mkWhisper 0 2 "a"; Diarization.mkWhisper 2 4 "b";
             Diarization.mkWhisper 4 6 "c"] in
  let e1 := Diarization.mkEnhanced 0 2 "a" "A" "m1"%string Diarization.male in
  let e2 := Diarization.mkEnhanced 2 4 "b" "B" "f1"%string Diarization.female in
  let e3 := Diarization.mkEnhanced 4 6 "c" "A" "m1"%string Diarization.male in
  Diarization.diarize (fun _ : list Z => 0%Q) VOICES turns [] ws = Some [e1; e2; e3] /\
  Diarization.voice_id e1 = Diarization.voice_id e3.
Proof.
  cbv zeta. split; [reflexivity|].
  refine (proj1 (same_speaker_same_voice (fun _ : list Z => 0%Q)
    (Diarization.mkVoices ["m1"; "m2"]%string ["f1"]%string)
    [Diarization.mkTurn 0 2 "A"; Diarization.mkTurn 2 4 "B"; Diarization.mkTurn 4 6 "A"]
    []
    [Diarization.mkWhisper 0 2 "a"; Diarization.mkWhisper 2 4 "b";
     Diarization.mkWhisper 4 6 "c"]
    _ _ _ _ _ _ _)).
  - reflexivity.
  - left. reflexivity.
  - right. right. left. reflexivity.
  - reflexivity.
Defined.

Lemma voice_drawn_from_gender_pool_witness :
  let VOICES := Diarization.mkVoices ["m1"; "m2"]%string ["f1"]%string in
  let turns := [Diarization.mkTurn 0 2 "A"; Diarization.mkTurn 2 4 "B"] in
  let ws := [Diarization.mkWhisper 0 2 "a"; Diarization.mkWhisper 2 4 "b"] in
  let e2 := Diarization.mkEnhanced 2 4 "b" "B" "f1"%string Diarization.female in
  Diarization.diarize (fun _ : list Z => 0%Q) VOICES turns [] ws
    = Some [Diarization.mkEnhanced 0 2 "a" "A" "m1"%string Diarization.male; e2] /\
  In (Diarization.voice_id e2) (Diarization.pool_of VOICES (Diarization.gender e2)).
Proof.
  cbv zeta. split; [reflexivity|].
  refine (voice_drawn_from_gender_pool (fun _ : list Z => 0%Q)
    (Diarization.mkVoices ["m1"; "m2"]%string ["f1"]%string)
    [Diarization.mkTurn 0 2 "A"; Diarization.mkTurn 2 4 "B"] []
    [Diarization.mkWhisper 0 2 "a"; Diarization.mkWhisper 2 4 "b"]
    _ _ _ _).
  - reflexivity.
  - right. left. reflexivity.
Defined.



(** X5. The aggregation loop stops at the first turn of the speaker that
    brings the total above 20 s: when every turn lasts at most [L] seconds,
    the accumulated duration is at most [20 + L]. *)
Theorem aggregate_overshoot_bounded {sample : Type} (spk : string)
    (y_full : list sample) (ds : list Diarization.Turn) (L : Q) :
  (forall d, In d ds -> (Diarization.t_end d - Diarization.t_start d <= L)%Q) ->
  (0 <= L)%Q ->
  forall acc, (snd acc <= 20)%Q ->
    (snd (Diarization.aggregate sample spk y_full ds acc) <= 20 + L)%Q.
Proof.
  intros Hlen HL.
  induction ds as [|d rest IH]; intros acc Hacc; cbn [Diarization.aggregate].
  - lra.
  - assert (Hrest : forall d', In d' rest ->
              (Diarization.t_end d' - Diarization.t_start d' <= L)%Q)
      by (intros d' Hd'; apply Hlen; now right).
    destruct (String.eqb (Diarization.t_speaker d) spk); [|now apply IH].
    pose proof (Hlen d (or_introl eq_refl)) as Hd.
    destruct (Py.Qltb 20 (snd acc + (Diarization.t_end d - Diarization.t_start d)))
      eqn:E.
    + cbn [snd]. lra.
    + apply Qltb_ge in E. apply IH; [exact Hrest | exact E].
Qed.

Lemma aggregate_overshoot_bounded_witness :
  (snd (Diarization.aggregate Z "A" []
          [Diarization.mkTurn 0 15 "A"; Diarization.mkTurn 15 30 "A";
           Diarization.mkTurn 30 45 "A"] ([], 0%Q)) <= 20 + 15)%Q.
Proof.
  apply (aggregate_overshoot_bounded "A" (@nil Z)
           [Diarization.mkTurn 0 15 "A"; Diarization.mkTurn 15 30 "A";
            Diarization.mkTurn 30 45 "A"] 15).
  - intros d [<- | [<- | [<- | []]]]; cbn; lra.
  - lra.
  - cbn. lra.
Defined.

(** X6. The audio and duration aggregated for a speaker depend on the
    turns of that speaker only: the turns of the other speakers can be
    removed without changing the result. *)
Theorem aggregate_ignores_other_speakers {sample : Type} (spk : string)
    (y_full : list sample) (ds : list Diarization.Turn) (acc : list sample * Q) :
  Diarization.aggregate sample spk y_full ds acc =
  Diarization.aggregate sample spk y_full
    (filter (fun d => String.eqb (Diarization.t_speaker d) spk) ds) acc.
Proof.
  revert acc. induction ds as [|d rest IH]; intros acc; [reflexivity|].
  cbn [Diarization.aggregate filter].
  destruct (String.eqb (Diarization.t_speaker d) spk) eqn:E.
  - cbn [Diarization.aggregate]. rewrite E.
    destruct (Py.Qltb 20 _); [reflexivity | apply IH].
  - apply IH.
Qed.

(** ** The sample saved for cloning, and the pitch estimate *)

Lemma slice_prefix {A : Type} (l : list A) (n : Z) :
  0 <= n -> Py.slice l 0 n = firstn (Z.to_nat n) l.
Proof.
  intros Hn. unfold Py.slice. cbn [Z.ltb Z.compare].
  replace (n <? 0) with false by (symmetry; apply Z.ltb_ge; exact Hn).
  rewrite (Z.min_l 0) by lia. cbn [Z.to_nat skipn]. rewrite Z.sub_0_r.
  destruct (Z.le_gt_cases n (Z.of_nat (List.length l))) as [Hle | Hgt].
  - rewrite Z.min_l by lia. reflexivity.
  - rewrite Z.min_r by lia. rewrite Nat2Z.id.
    rewrite !firstn_all2 by lia. reflexivity.
Qed.

(** X7. A sample is saved exactly when the speaker has audio; it is the
    first 160000 samples of that audio, so it lasts at most 10 s. *)
Theorem speaker_sample_at_most_10_seconds {sample : Type} (spk_audio : list sample) :
  (Worker.speaker_sample sample spk_audio = None <-> spk_audio = []) /\
  forall s, Worker.speaker_sample sample spk_audio = Some s ->
    s = firstn (Z.to_nat 160000) spk_audio /\
    Z.of_nat (List.length s) <= 160000 /\
    (Diarization.seconds_of sample s <= 10)%Q.
Proof.
  unfold Worker.speaker_sample. split.
  - destruct spk_audio; cbn; split; congruence.
  - intros s. destruct (Nat.eqb (List.length spk_audio) 0); [discriminate|].
    change (Py.int_of_float (10 * inject_Z Diarization.sr)) with 160000.
    rewrite slice_prefix by discriminate. intros Hs.
    assert (Hs' : s = firstn (Z.to_nat 160000) spk_audio) by congruence.
    clear Hs. subst s.
    assert (Hlen : Z.of_nat (List.length (firstn (Z.to_nat 160000) spk_audio)) <= 160000).
    { rewrite length_firstn.
      apply Z.le_trans with (Z.of_nat (Z.to_nat 160000));
        [apply Nat2Z.inj_le, Nat.le_min_l|].
      rewrite Z2Nat.id by discriminate. apply Z.le_refl. }
    split; [reflexivity|]. split; [exact Hlen|].
    unfold Diarization.seconds_of, Diarization.sr.
    apply Qle_shift_div_r; [reflexivity|].
    apply Qle_trans with (inject_Z 160000); [rewrite <- Zle_Qle; exact Hlen|].
    vm_compute. discriminate.
Qed.

Lemma speaker_sample_at_most_10_seconds_witness :
  Worker.speaker_sample Z [1; 2; 3] = Some [1; 2; 3] /\
  [1; 2; 3] = firstn (Z.to_nat 160000) [1; 2; 3].
Proof.
  split; [reflexivity|].
  apply (proj2 (speaker_sample_at_most_10_seconds [1; 2; 3]) [1; 2; 3]).
  reflexivity.
Defined.

Section Median.

Lemma insert_sorted_In (x y : Q) (l : list Q) :
  In y (Worker.insert_sorted x l) <-> y = x \/ In y l.
Proof.
  induction l as [|z r IH]; cbn [Worker.insert_sorted].
  - cbn. intuition.
  - destruct (Qle_bool x z); cbn [In]; [|rewrite IH]; intuition.
Qed.

Lemma sorted_In (y : Q) (l : list Q) : In y (Worker.sorted l) <-> In y l.
Proof.
  induction l as [|z r IH]; cbn [Worker.sorted fold_right]; [reflexivity|].
  fold (Worker.sorted r). rewrite insert_sorted_In, IH. cbn. intuition.
Qed.

Lemma insert_sorted_length (x : Q) (l : list Q) :
  List.length (Worker.insert_sorted x l) = S (List.length l).
Proof.
  induction l as [|z r IH]; cbn [Worker.insert_sorted]; [reflexivity|].
  destruct (Qle_bool x z); cbn [List.length]; [reflexivity | now rewrite IH].
Qed.

Lemma sorted_length (l : list Q) : List.length (Worker.sorted l) = List.length l.
Proof.
  induction l as [|z r IH]; cbn [Worker.sorted fold_right]; [reflexivity|].
  fold (Worker.sorted r). rewrite insert_sorted_length, IH. reflexivity.
Qed.

(** The median lies between any bounds of the values. *)
Lemma median_between (l : list Q) (lo hi : Q) :
  l <> [] ->
  (forall x, In x l -> (lo <= x)%Q /\ (x <= hi)%Q) ->
  (lo <= Worker.median l)%Q /\ (Worker.median l <= hi)%Q.
Proof.
  intros Hne Hb. unfold Worker.median.
  set (s := Worker.sorted l). set (n := List.length s).
  assert (Hn : (0 < n)%nat).
  { unfold n, s. rewrite sorted_length. destruct l; [congruence | cbn; lia]. }
  assert (Hnth : forall i, (i < n)%nat -> (lo <= nth i s 0)%Q /\ (nth i s 0 <= hi)%Q).
  { intros i Hi. apply Hb. apply (sorted_In _ l). apply nth_In. exact Hi. }
  assert (Hhalf : (n / 2 < n)%nat) by (apply Nat.div_lt; lia).
  destruct (Nat.even n).
  - destruct (Hnth (n / 2 - 1)%nat ltac:(lia)) as [A1 A2].
    destruct (Hnth (n / 2)%nat Hhalf) as [B1 B2].
    split.
    + apply Qle_shift_div_l; [reflexivity | lra].
    + apply Qle_shift_div_r; [reflexivity | lra].
  - apply Hnth. exact Hhalf.
Qed.

End Median.

(** X8. The pitch estimate is 0 when there is no audio, when the
    estimator raises, or when no frame is voiced; otherwise it is the
    median of the voiced frames and lies within any bounds they all
    satisfy, so with positive frame values an estimate of 0 always means
    that no pitch was measured. *)
Theorem pitch_is_zero_or_within_frame_bounds {sample : Type}
    (pyin : list sample -> option (list (option Q))) (y : list sample) (lo hi : Q) :
  (0 < lo)%Q ->
  (forall f0 f, pyin y = Some f0 -> In f (Worker.voiced f0) ->
     (lo <= f)%Q /\ (f <= hi)%Q) ->
  (Worker.get_pitch sample pyin y = 0%Q /\
   (y = [] \/ pyin y = None \/ exists f0, pyin y = Some f0 /\ Worker.voiced f0 = [])) \/
  (((lo <= Worker.get_pitch sample pyin y)%Q /\ (Worker.get_pitch sample pyin y <= hi)%Q) /\
   y <> [] /\
   exists f0, pyin y = Some f0 /\ Worker.voiced f0 <> [] /\
     Worker.get_pitch sample pyin y = Worker.median (Worker.voiced f0)).
Proof.
  intros Hlo Hb. unfold Worker.get_pitch.
  destruct y as [|y0 y']; [left; split; [reflexivity | now left]|].
  cbn [List.length Nat.eqb].
  destruct (pyin (y0 :: y')) as [f0|] eqn:Ep.
  - destruct (Worker.voiced f0) as [|f fs] eqn:Ev.
    + left. split; [reflexivity|]. right. right. exists f0. now split.
    + right. cbn [List.length Nat.eqb]. split; [|split; [discriminate|]].
      * apply median_between; [discriminate|].
        intros x Hx. apply (Hb f0 x eq_refl). rewrite Ev. exact Hx.
      * exists f0. rewrite Ev. split; [reflexivity|]. split; [discriminate | reflexivity].
  - left. split; [reflexivity|]. right. now left.
Qed.

(** Four frames, one of them unvoiced: the median of 100, 120 and 210. *)
Lemma pitch_is_zero_or_within_frame_bounds_witness :
  let pyin := fun _ : list Z => Some [Some 210%Q; None; Some 100%Q; Some 120%Q] in
  let y := [0; 0] in
  Worker.get_pitch Z pyin y = 120%Q /\
  ((Worker.get_pitch Z pyin y = 0%Q /\
    (y = [] \/ pyin y = None \/
     exists f0, pyin y = Some f0 /\ Worker.voiced f0 = [])) \/
   (((65 <= Worker.get_pitch Z pyin y)%Q /\ (Worker.get_pitch Z pyin y <= 400)%Q) /\
    y <> [] /\
    exists f0, pyin y = Some f0 /\ Worker.voiced f0 <> [] /\
      Worker.get_pitch Z pyin y = Worker.median (Worker.voiced f0))).
Proof.
  cbv zeta. split; [reflexivity|].
  apply (pitch_is_zero_or_within_frame_bounds
           (fun _ : list Z => Some [Some 210%Q; None; Some 100%Q; Some 120%Q])
           [0; 0] 65 400).
  - reflexivity.
  - intros f0 f [= <-] Hin. cbn in Hin.
    destruct Hin as [<- | [<- | [<- | []]]]; split; discriminate.
Defined.

(** * Further properties of the voice catalog *)

(** X9. Reading the same catalog again changes nothing: loading is
    idempotent on [VOICES]. *)
Theorem load_dynamic_voices_idempotent (file : Catalog.CatalogFile)
    (VOICES : Diarization.Voices Catalog.json) :
  Catalog.load_dynamic_voices file (Catalog.load_dynamic_voices file VOICES)
  = Catalog.load_dynamic_voices file VOICES.
Proof.
  unfold Catalog.load_dynamic_voices.
  destruct (Catalog.read_catalog file) as [[new_male new_female]|]; [|reflexivity].
  destruct VOICES as [m f], new_male, new_female; reflexivity.
Qed.

Section CatalogScan.

Import Catalog.

Lemma scan_item_adds_one (item : json) (acc acc' : list json * list json) :
  scan_item item acc = Some acc' ->
  acc' = acc \/
  exists v, listed_voice item v /\
    (acc' = (fst acc ++ [v], snd acc) \/ acc' = (fst acc, snd acc ++ [v])).
Proof.
  unfold scan_item, listed_voice.
  destruct item as [| | | | |fields]; try discriminate.
  destruct (match lookup "labels" fields with Some l => l | None => JObj [] end)
    as [| | | | |label_fields]; try discriminate.
  destruct (match lookup "gender" label_fields with Some g => g | None => JStr EmptyString end)
    as [| | |s| |]; try discriminate.
  destruct (lookup "voice_id" fields) as [v|] eqn:Ev; [|intros [= <-]; now left].
  destruct (truthy v) eqn:Et; [|intros [= <-]; now left].
  destruct (String.eqb (Py.lower s) "male").
  - intros [= <-]. right. exists v. split; [|now left]. exists fields. now repeat split.
  - destruct (String.eqb (Py.lower s) "female").
    + intros [= <-]. right. exists v. split; [|now right]. exists fields. now repeat split.
    + intros [= <-]. now left.
Qed.

Lemma scan_provenance (items : list json) :
  forall acc acc', scan items acc = Some acc' ->
    exists added_male added_female,
      acc' = (fst acc ++ added_male, snd acc ++ added_female) /\
      (List.length added_male + List.length added_female <= List.length items)%nat /\
      forall v, In v (added_male ++ added_female) ->
        exists item, In item items /\ listed_voice item v.
Proof.
  induction items as [|item rest IH]; intros acc acc' Hscan; cbn [scan] in Hscan.
  - injection Hscan as <-. exists [], []. rewrite !app_nil_r.
    split; [now destruct acc|]. split; [cbn; lia | intros v []].
  - destruct (scan_item item acc) as [acc1|] eqn:E1; [|discriminate].
    destruct (IH acc1 acc' Hscan) as (am & af & -> & Hlen & Hprov).
    apply scan_item_adds_one in E1.
    destruct E1 as [-> | (v & Hv & [-> | ->])]; cbn [fst snd].
    + exists am, af. split; [reflexivity|]. split; [cbn; lia|].
      intros v Hin. destruct (Hprov v Hin) as (it & Hit & Hl).
      exists it. split; [now right | exact Hl].
    + exists (v :: am), af. rewrite <- app_assoc. split; [reflexivity|].
      split; [cbn in *; lia|].
      intros v' [<- | Hin]; [exists item; split; [now left | exact Hv]|].
      destruct (Hprov v' Hin) as (it & Hit & Hl). exists it. split; [now right | exact Hl].
    + exists am, (v :: af). rewrite <- app_assoc. split; [reflexivity|].
      split; [rewrite length_cons; cbn in *; lia|].
      intros v' Hin. apply in_app_iff in Hin.
      destruct Hin as [Hin | [<- | Hin]].
      * destruct (Hprov v' (proj2 (in_app_iff _ _ _) (or_introl Hin))) as (it & Hit & Hl).
        exists it. split; [now right | exact Hl].
      * exists item. split; [now left | exact Hv].
      * destruct (Hprov v' (proj2 (in_app_iff _ _ _) (or_intror Hin))) as (it & Hit & Hl).
        exists it. split; [now right | exact Hl].
Qed.

Lemma lower_ascii_idempotent (c : ascii) :
  Py.lower_ascii (Py.lower_ascii c) = Py.lower_ascii c.
Proof.
  destruct c as [[] [] [] [] [] [] [] []]; reflexivity.
Qed.

Lemma lower_idempotent (s : string) : Py.lower (Py.lower s) = Py.lower s.
Proof.
  induction s as [|c r IH]; cbn [Py.lower]; [reflexivity|].
  rewrite lower_ascii_idempotent, IH. reflexivity.
Qed.

End CatalogScan.

(** X10. A catalog that is read successfully is a dictionary whose
    ['voices'] entry is a list; every voice of the two lists read from it is
    the non-empty ['voice_id'] of an entry of that list, and the two lists
    together are no longer than it: an entry feeds at most one pool. *)
Theorem catalog_voices_come_from_entries (data : Catalog.json)
    (new_male new_female : list Catalog.json) :
  Catalog.read_catalog (Catalog.Content data) = Some (new_male, new_female) ->
  exists fields items,
    data = Catalog.JObj fields /\
    Catalog.lookup "voices" fields = Some (Catalog.JArr items) /\
    (List.length new_male + List.length new_female <= List.length items)%nat /\
    forall v, In v (new_male ++ new_female) ->
      exists item, In item items /\ listed_voice item v.
Proof.
  cbn [Catalog.read_catalog]. unfold Catalog.get.
  destruct data as [| | | | |fields]; try discriminate.
  destruct (Catalog.lookup "voices" fields) as [found|] eqn:El; [|discriminate].
  destruct (negb (Catalog.truthy found)); [discriminate|].
  destruct found as [| | | |items|]; try discriminate.
  intros Hscan. apply scan_provenance in Hscan.
  destruct Hscan as (am & af & [= -> ->] & Hlen & Hprov).
  exists fields, items. repeat split; assumption.
Qed.

Lemma catalog_voices_come_from_entries_witness :
  let entry (id gender : string) :=
    Catalog.JObj [("voice_id"%string, Catalog.JStr id);
                  ("labels"%string, Catalog.JObj [("gender"%string, Catalog.JStr gender)])] in
  let items := [entry "idFemale0001"%string "female"%string;
                entry "idNeutral001"%string "neutral"%string;
                entry "idMale000001"%string "MALE"%string] in
  let data := Catalog.JObj [("voices"%string, Catalog.JArr items)] in
  Catalog.read_catalog (Catalog.Content data)
    = Some ([Catalog.JStr "idMale000001"], [Catalog.JStr "idFemale0001"]) /\
  exists fields items',
    data = Catalog.JObj fields /\
    Catalog.lookup "voices" fields = Some (Catalog.JArr items').
Proof.
  cbv zeta. split; [reflexivity|].
  destruct (catalog_voices_come_from_entries
    (Catalog.JObj [("voices"%string, Catalog.JArr
       [Catalog.JObj [("voice_id"%string, Catalog.JStr "idFemale0001");
                      ("labels"%string,
                       Catalog.JObj [("gender"%string, Catalog.JStr "female")])];
        Catalog.JObj [("voice_id"%string, Catalog.JStr "idNeutral001");
                      ("labels"%string,
                       Catalog.JObj [("gender"%string, Catalog.JStr "neutral")])];
        Catalog.JObj [("voice_id"%string, Catalog.JStr "idMale000001");
                      ("labels"%string,
                       Catalog.JObj [("gender"%string, Catalog.JStr "MALE")])]])])
    [Catalog.JStr "idMale000001"] [Catalog.JStr "idFemale0001"])
    as (fields & items' & Hd & Hl & _).
  - reflexivity.
  - exists fields, items'. split; assumption.
Defined.

(** X11. The gender label of a catalog entry is compared without regard
    to the case of its ASCII letters: an entry labelled [s] is scanned as
    the same entry labelled with the lower-case form of [s]. *)
Theorem gender_label_case_insensitive (vid : Catalog.json) (s : string)
    (others : list (string * Catalog.json)) (acc : list Catalog.json * list Catalog.json) :
  let entry (label : string) :=
    Catalog.JObj [("voice_id"%string, vid);
                  ("labels"%string,
                   Catalog.JObj (("gender"%string, Catalog.JStr label) :: others))] in
  Catalog.scan_item (entry s) acc = Catalog.scan_item (entry (Py.lower s)) acc.
Proof.
  cbv zeta. unfold Catalog.scan_item. cbn [Catalog.lookup String.eqb Ascii.eqb Bool.eqb].
  rewrite lower_idempotent. reflexivity.
Qed.

(** * Further properties of the dubbing script *)

Section Retry.

Variable Audio : Type.
Variable eleven : nat -> string -> string -> Dub.Response Audio.
Variables text voice : string.

Lemma posts_of_app (a b : Dub.log) :
  Dub.posts_of (a ++ b) = (Dub.posts_of a + Dub.posts_of b)%nat.
Proof. unfold Dub.posts_of. rewrite filter_app, length_app. reflexivity. Qed.

Lemma failure_of_none (r : Dub.Response Audio) :
  failure_of r = None -> exists body, r = Dub.Http Audio 200 body.
Proof.
  destruct r as [status body | e]; cbn; [|discriminate].
  destruct (Z.eqb_spec status 200) as [-> | _]; [eauto|].
  destruct (status =? 404); discriminate.
Qed.

(** One iteration of the attempt loop. *)
Lemma tts_attempts_step (attempt left : nat) (l : Dub.log) :
  Dub.tts_attempts Audio eleven text voice attempt (S left) l =
  match failure_of (eleven (Dub.posts_of l) voice text) with
  | None =>
      (l ++ [Dub.Post voice],
       Dub.Wrote Audio match eleven (Dub.posts_of l) voice text with
                       | Dub.Http _ _ body => body
                       | Dub.Raises _ _ => None
                       end)
  | Some e =>
      if Nat.eqb attempt 2
      then (l ++ [Dub.Post voice], Dub.Raised Audio e)
      else Dub.tts_attempts Audio eleven text voice (S attempt) left
             ((l ++ [Dub.Post voice]) ++ [Dub.Sleep])
  end.
Proof.
  cbn [Dub.tts_attempts]. change (Dub.MAX_RETRIES - 1)%nat with 2%nat.
  destruct (eleven (Dub.posts_of l) voice text) as [status body | e];
    cbn [failure_of]; [|reflexivity].
  destruct (status =? 200); cbn [negb]; [reflexivity|].
  destruct (status =? 404); destruct (Nat.eqb attempt 2); reflexivity.
Qed.

Lemma attempts_log_S (k : nat) :
  (1 <= k)%nat ->
  attempts_log voice (S k) = Dub.Post voice :: Dub.Sleep :: attempts_log voice k.
Proof. destruct k; [lia | reflexivity]. Qed.

(** The attempt loop returns the first answer with status 200 among the
    answers it is still allowed to ask for, or raises what the last of them
    leads to. *)
Lemma tts_attempts_spec (left : nat) :
  forall attempt l, (attempt + left = 3)%nat -> (1 <= left)%nat ->
    let r := Dub.tts_attempts Audio eleven text voice attempt left l in
    let answer j := eleven (Dub.posts_of l + j)%nat voice text in
    exists k, (1 <= k <= left)%nat /\
      fst r = l ++ attempts_log voice k /\
      (forall j, (j < k - 1)%nat -> failure_of (answer j) <> None) /\
      ((exists body, snd r = Dub.Wrote Audio body /\
                     answer (k - 1)%nat = Dub.Http Audio 200 body) \/
       (exists e, snd r = Dub.Raised Audio e /\ k = left /\
                  failure_of (answer (k - 1)%nat) = Some e)).
Proof.
  induction left as [|left' IH]; intros attempt l Hsum Hpos; [lia|].
  cbv zeta. rewrite tts_attempts_step.
  destruct (failure_of (eleven (Dub.posts_of l) voice text)) as [e|] eqn:Ef.
  - destruct (Nat.eqb_spec attempt 2) as [-> | Hne].
    + assert (left' = 0%nat) by lia. subst left'.
      exists 1%nat. cbn [fst snd attempts_log Nat.sub].
      split; [lia|]. split; [reflexivity|]. split; [intros j Hj; lia|].
      right. exists e. rewrite Nat.add_0_r. now repeat split.
    + destruct (IH (S attempt) ((l ++ [Dub.Post voice]) ++ [Dub.Sleep])
                  ltac:(lia) ltac:(lia)) as (k & Hk & Hlog & Hfail & Hend).
      cbv zeta in Hlog, Hfail, Hend.
      assert (Hposts : Dub.posts_of ((l ++ [Dub.Post voice]) ++ [Dub.Sleep])
                       = S (Dub.posts_of l)).
      { rewrite !posts_of_app. cbn. lia. }
      rewrite Hposts in Hfail, Hend.
      exists (S k). split; [lia|]. split.
      * rewrite Hlog, attempts_log_S by lia. rewrite <- !app_assoc. reflexivity.
      * split.
        -- intros [|j] Hj.
           ++ rewrite Nat.add_0_r, Ef. discriminate.
           ++ replace (Dub.posts_of l + S j)%nat with (S (Dub.posts_of l) + j)%nat by lia.
              apply Hfail. lia.
        -- replace (Dub.posts_of l + (S k - 1))%nat
             with (S (Dub.posts_of l) + (k - 1))%nat by lia.
           destruct Hend as [(body & Hw & Ha) | (e' & Hr & Hk' & Hf)].
           ++ left. exists body. now split.
           ++ right. exists e'. repeat split; [exact Hr | lia | exact Hf].
  - destruct (failure_of_none _ Ef) as [body Hb]. rewrite Hb.
    exists 1%nat. cbn [fst snd attempts_log Nat.sub].
    split; [lia|]. split; [reflexivity|]. split; [intros j Hj; lia|].
    left. exists body. rewrite Nat.add_0_r. now split.
Qed.

End Retry.

(** X12. With an API key, [generate_tts] asks for the given voice one to
    three times, pausing between two requests; it returns the audio of the
    first answer with status 200, and when all three answers fail it raises
    what the third one leads to.  It never ends without audio or
    exception. *)
Theorem generate_tts_first_success_or_third_failure {Audio : Type}
    (eleven : nat -> string -> string -> Dub.Response Audio)
    (text voice : string) (l : Dub.log) :
  let r := Dub.generate_tts Audio true eleven text voice l in
  let answer j := eleven (Dub.posts_of l + j)%nat voice text in
  exists k, (1 <= k <= 3)%nat /\
    fst r = l ++ attempts_log voice k /\
    (forall j, (j < k - 1)%nat -> failure_of (answer j) <> None) /\
    ((exists body, snd r = Dub.Wrote Audio body /\
                   answer (k - 1)%nat = Dub.Http Audio 200 body) \/
     (exists e, snd r = Dub.Raised Audio e /\ k = 3%nat /\
                failure_of (answer 2%nat) = Some e)).
Proof.
  cbv zeta. unfold Dub.generate_tts. cbn [negb].
  destruct (tts_attempts_spec Audio eleven text voice 3 0 l eq_refl (le_n_S _ _ (Nat.le_0_l 2)))
    as (k & Hk & Hlog & Hfail & Hend).
  exists k. split; [exact Hk|]. split; [exact Hlog|]. split; [exact Hfail|].
  destruct Hend as [Hw | (e & Hr & -> & Hf)]; [now left|].
  right. exists e. now repeat split.
Qed.

Section JobLog.

Variable Audio : Type.
Variable api_key : bool.
Variable eleven : nat -> string -> string -> Dub.Response Audio.

Lemma edges_of_app (a b : Dub.log) :
  edges_of (a ++ b) = (edges_of a + edges_of b)%nat.
Proof. unfold edges_of. rewrite filter_app, length_app. reflexivity. Qed.

Lemma attempts_log_facts (voice : string) (k : nat) :
  (Dub.posts_of (attempts_log voice k) = k /\
   edges_of (attempts_log voice k) = 0)%nat /\
  Forall ratio_in_range (attempts_log voice k).
Proof.
  induction k as [|k IH]; [repeat split; constructor|].
  destruct k as [|k']; [repeat split; repeat constructor|].
  destruct IH as [[IHp IHe] IHf].
  change (attempts_log voice (S (S k')))
    with (Dub.Post voice :: Dub.Sleep :: attempts_log voice (S k')).
  repeat split.
  - unfold Dub.posts_of in *. cbn [filter List.length]. now rewrite IHp.
  - unfold edges_of in *. cbn [filter]. exact IHe.
  - repeat constructor. exact IHf.
Qed.

Lemma gains_attempts (l : Dub.log) (voice : string) (k m : nat) :
  (k <= m)%nat -> gains l (l ++ attempts_log voice k) m 0.
Proof.
  intros Hk. destruct (attempts_log_facts voice k) as [[Hp He] Hf].
  unfold gains. rewrite posts_of_app, edges_of_app, Hp, He.
  repeat split; try lia. intros Hl. apply Forall_app. now split.
Qed.

Lemma gains_trans {l0 l1 l2 : Dub.log} {p1 p2 e1 e2 : nat} :
  gains l0 l1 p1 e1 -> gains l1 l2 p2 e2 -> gains l0 l2 (p1 + p2) (e1 + e2).
Proof.
  clear. unfold gains. intros (A1 & A2 & A3) (B1 & B2 & B3).
  split; [lia|]. split; [lia | auto].
Qed.

Lemma generate_tts_gains (text voice : string) (l : Dub.log) :
  gains l (fst (Dub.generate_tts Audio api_key eleven text voice l))
    (if api_key then 3 else 0) 0 /\
  (api_key = false ->
   Dub.generate_tts Audio api_key eleven text voice l
   = (l, Dub.Raised Audio (Dub.Exception_ "ELEVENLABS_API_KEY is missing"))).
Proof.
  destruct api_key.
  - split; [|discriminate].
    unfold Dub.generate_tts. cbn [negb]. change Dub.MAX_RETRIES with 3%nat.
    destruct (tts_attempts_spec Audio eleven text voice 3 0 l eq_refl
                (le_n_S _ _ (Nat.le_0_l 2))) as (k & Hk & Hlog & _).
    cbv zeta in Hlog. rewrite Hlog. apply gains_attempts. lia.
  - split; [|reflexivity]. cbn [Dub.generate_tts negb fst]. unfold gains.
    split; [lia|]. split; [lia | auto].
Qed.

End JobLog.

Section JobSteps.

Variable Audio : Type.
Variable duration : Audio -> Z.
Variable api_key : bool.
Variable eleven : nat -> string -> string -> Dub.Response Audio.
Variable edge_tts : string -> option string -> option Audio.
Variable atempo : Q -> Audio -> option Audio.
Variable lang_code : string.

Lemma gains_refl (l : Dub.log) : gains l l 0 0.
Proof. clear. unfold gains. split; [lia|]. split; [lia | auto]. Qed.

Lemma gains_weaken {l l' : Dub.log} {p e : nat} (p' : nat) :
  gains l l' p e -> (p <= p')%nat -> gains l l' p' e.
Proof.
  clear. unfold gains. intros (A1 & A2 & A3) Hp.
  split; [lia|]. split; [lia | auto].
Qed.

Lemma primary_gains (text voice : string) (l : Dub.log) :
  gains l (fst (Dub.primary Audio api_key eleven text voice l))
    (if api_key then 6 else 0) 0 /\
  (api_key = false ->
   Dub.primary Audio api_key eleven text voice l
   = (l, Dub.Raised Audio (Dub.Exception_ "ELEVENLABS_API_KEY is missing"))).
Proof.
  assert (Hoff : api_key = false ->
    Dub.primary Audio api_key eleven text voice l
    = (l, Dub.Raised Audio (Dub.Exception_ "ELEVENLABS_API_KEY is missing"))).
  { intros Hk. unfold Dub.primary.
    rewrite (proj2 (generate_tts_gains Audio api_key eleven text voice l) Hk).
    reflexivity. }
  split; [|exact Hoff].
  destruct api_key eqn:Ek.
  - unfold Dub.primary.
    destruct (generate_tts_gains Audio true eleven text voice l) as [G1 _].
    destruct (Dub.generate_tts Audio true eleven text voice l) as [l1 out].
    cbn [fst] in G1.
    destruct out as [body | ve |]; cbn [fst]; try (apply (gains_weaken 6 G1); lia).
    destruct (Dub.exn_eqb_value ve Dub.VOICE_NOT_FOUND
              && negb (String.eqb voice Dub.default_voice))%bool.
    + destruct (generate_tts_gains Audio true eleven text Dub.default_voice l1)
        as [G2 _].
      exact (gains_trans G1 G2).
    + cbn [fst]. apply (gains_weaken 6 G1). lia.
  - rewrite (Hoff eq_refl). apply gains_refl.
Qed.

Lemma fit_gains (audio_seg : Audio) (target_duration : Z) (l : Dub.log) :
  gains l (fst (Dub.fit Audio duration atempo audio_seg target_duration l)) 0 0.
Proof.
  unfold Dub.fit, Dub.stretch_audio.
  destruct (Dub.needs_stretch _); cbn [fst]; [|apply gains_refl].
  unfold gains. rewrite posts_of_app, edges_of_app. cbn.
  repeat split; try lia.
  intros Hl. apply Forall_app. split; [exact Hl|].
  repeat constructor; apply clamp_ratio_spec.
Qed.

Lemma edge_gains (text : string) (l : Dub.log) :
  gains l (fst (Dub.generate_edge_tts Audio edge_tts text lang_code l)) 0 1.
Proof.
  unfold Dub.generate_edge_tts, gains. cbn [fst].
  rewrite posts_of_app, edges_of_app. cbn.
  repeat split; try lia.
  intros Hl. apply Forall_app. split; [exact Hl | repeat constructor].
Qed.

(** What one iteration of the segment loop adds to the log. *)
Lemma step_gains (seg : Dub.Segment) (track track' : list (Dub.Piece Audio))
    (l l' : Dub.log) (p : Dub.Path) :
  Dub.step Audio duration api_key eleven edge_tts atempo lang_code seg (track, l)
    = ((track', l'), p) ->
  gains l l' (if processed p then if api_key then 6 else 0 else 0)
    (if used_fallback p then 1 else 0) /\
  (api_key = false -> p <> Dub.ViaPrimary).
Proof.
  unfold Dub.step.
  destruct (negb (Py.truthy (Py.strip (Dub.s_text seg)))).
  { intros [= <- <- <-]. split; [apply gains_refl | discriminate]. }
  destruct (_ <=? 0).
  { intros [= <- <- <-]. split; [apply gains_refl | discriminate]. }
  set (text := Py.strip (Dub.s_text seg)).
  set (target := Py.int_of_float (Dub.s_end seg * 1000)
                 - Py.int_of_float (Dub.s_start seg * 1000)).
  destruct (primary_gains text (Dub.segment_voice seg) l) as [G1 K1].
  destruct (Dub.primary Audio api_key eleven text (Dub.segment_voice seg) l)
    as [l1 out] eqn:Ep.
  cbn [fst] in G1.
  assert (Hfallback : forall lf st p0,
    gains l lf (if api_key then 6 else 0) 0 ->
    match Dub.generate_edge_tts Audio edge_tts text lang_code lf with
    | (l2, Some audio_seg) =>
        match Dub.fit Audio duration atempo audio_seg target l2 with
        | (l3, Some final_clip) =>
            ((Dub.place Audio duration track
                (Py.int_of_float (Dub.s_start seg * 1000)) final_clip, l3),
             Dub.ViaFallback)
        | (l3, None) => ((track ++ [Dub.Silent Audio target], l3), Dub.AllFailed)
        end
    | (l2, None) => ((track ++ [Dub.Silent Audio target], l2), Dub.AllFailed)
    end = ((st, l'), p0) ->
    gains l l' (if processed p0 then if api_key then 6 else 0 else 0)
      (if used_fallback p0 then 1 else 0) /\
    (api_key = false -> p0 <> Dub.ViaPrimary)).
  { intros lf st p0 Gf.
    pose proof (edge_gains text lf) as Ge.
    destruct (Dub.generate_edge_tts Audio edge_tts text lang_code lf) as [l2 oa].
    cbn [fst] in Ge.
    pose proof (gains_trans Gf Ge) as G2.
    destruct oa as [a|].
    - pose proof (fit_gains a target l2) as G3.
      destruct (Dub.fit Audio duration atempo a target l2) as [l3 oc].
      cbn [fst] in G3.
      pose proof (gains_trans G2 G3) as G4.
      destruct oc; intros [= <- <- <-];
        (split; [apply (gains_weaken _ G4); cbn; lia | discriminate]).
    - intros [= <- <- <-].
      split; [apply (gains_weaken _ G2); cbn; lia | discriminate]. }
  destruct out as [[audio_seg|] | e |].
  - pose proof (fit_gains audio_seg target l1) as G2.
    destruct (Dub.fit Audio duration atempo audio_seg target l1) as [l2 oc].
    cbn [fst] in G2.
    pose proof (gains_trans G1 G2) as G3.
    destruct oc as [c|].
    + intros [= <- <- <-]. split; [apply (gains_weaken _ G3); cbn; lia|].
      intros Hk. specialize (K1 Hk). discriminate K1.
    + apply (Hfallback l2). apply (gains_weaken _ G3). lia.
  - apply (Hfallback l1). exact G1.
  - apply (Hfallback l1). exact G1.
  - apply (Hfallback l1). exact G1.
Qed.

End JobSteps.

Section JobRun.

Variable Audio : Type.
Variable duration : Audio -> Z.
Variable api_key : bool.
Variable eleven : nat -> string -> string -> Dub.Response Audio.
Variable edge_tts : string -> option string -> option Audio.
Variable atempo : Q -> Audio -> option Audio.
Variable lang_code : string.

(** What the whole segment loop adds to the log. *)
Lemma run_gains (segments : list Dub.Segment) :
  forall track l track' l' ps,
    Dub.run Audio duration api_key eleven edge_tts atempo lang_code segments (track, l)
      = ((track', l'), ps) ->
    List.length ps = List.length segments /\
    gains l l' ((if api_key then 6 else 0) * List.length (filter processed ps))
      (List.length (filter used_fallback ps)) /\
    (api_key = false -> ~ In Dub.ViaPrimary ps).
Proof.
  induction segments as [|seg rest IH]; intros track l track' l' ps Hrun;
    cbn [Dub.run] in Hrun.
  - injection Hrun as <- <- <-. cbn. rewrite Nat.mul_0_r.
    split; [reflexivity|]. split; [apply gains_refl | tauto].
  - destruct (Dub.step Audio duration api_key eleven edge_tts atempo lang_code seg
                (track, l)) as [[track1 l1] p] eqn:Estep.
    destruct (Dub.run Audio duration api_key eleven edge_tts atempo lang_code rest
                (track1, l1)) as [[track2 l2] ps'] eqn:Erest.
    injection Hrun as <- <- <-.
    destruct (step_gains Audio duration api_key eleven edge_tts atempo lang_code
                seg track track1 l l1 p Estep) as [G1 N1].
    destruct (IH track1 l1 track2 l2 ps' Erest) as (Hlen & G2 & N2).
    split; [cbn; now rewrite Hlen|]. split.
    + destruct G1 as (A1 & A2 & A3), G2 as (B1 & B2 & B3).
      unfold gains. cbn [filter].
      destruct (processed p), (used_fallback p), api_key; cbn [List.length];
        (split; [lia | split; [lia | auto]]).
    + intros Hk [Heq | Hin]; [exact (N1 Hk Heq) | exact (N2 Hk Hin)].
Qed.

End JobRun.

(** X13. A job asks the primary provider at most six times per segment
    it processes (three for the voice of the segment, three for the default
    voice) and never for a skipped segment; it calls the fallback provider
    exactly once for each segment that did not get its clip from the
    primary provider, and never otherwise. *)
Theorem job_provider_calls_bounded {Audio : Type} (duration : Audio -> Z)
    (api_key : bool) (eleven : nat -> string -> string -> Dub.Response Audio)
    (edge_tts : string -> option string -> option Audio)
    (atempo : Q -> Audio -> option Audio) (lang_code : string)
    (segments : list Dub.Segment) :
  let job := Dub.main Audio duration api_key eleven edge_tts atempo lang_code segments in
  let log := snd (fst job) in
  let paths := snd job in
  List.length paths = List.length segments /\
  (Dub.posts_of log <= 6 * List.length (filter processed paths))%nat /\
  edges_of log = List.length (filter used_fallback paths).
Proof.
  cbv zeta. unfold Dub.main.
  destruct (Dub.run Audio duration api_key eleven edge_tts atempo lang_code segments
              ([], [])) as [[track l] ps] eqn:Erun.
  destruct (run_gains Audio duration api_key eleven edge_tts atempo lang_code
              segments [] [] track l ps Erun) as (Hlen & (Hp & He & _) & _).
  cbn [fst snd]. split; [exact Hlen|]. split.
  - cbn in Hp. destruct api_key; lia.
  - cbn in He. exact He.
Qed.

(** X14. Without an API key the job sends no request to the primary
    provider, and no segment gets its clip from it. *)
Theorem no_api_key_no_request {Audio : Type} (duration : Audio -> Z)
    (eleven : nat -> string -> string -> Dub.Response Audio)
    (edge_tts : string -> option string -> option Audio)
    (atempo : Q -> Audio -> option Audio) (lang_code : string)
    (segments : list Dub.Segment) :
  let job := Dub.main Audio duration false eleven edge_tts atempo lang_code segments in
  Dub.posts_of (snd (fst job)) = 0%nat /\ ~ In Dub.ViaPrimary (snd job).
Proof.
  cbv zeta. unfold Dub.main.
  destruct (Dub.run Audio duration false eleven edge_tts atempo lang_code segments
              ([], [])) as [[track l] ps] eqn:Erun.
  destruct (run_gains Audio duration false eleven edge_tts atempo lang_code
              segments [] [] track l ps Erun) as (_ & (Hp & _ & _) & Hnot).
  cbn [fst snd]. split; [cbn in Hp; lia | now apply Hnot].
Qed.

(** X15. Every run of the stretch utility in a job gets a ratio between
    0.5 and 2.0. *)
Theorem job_stretch_ratios_in_range {Audio : Type} (duration : Audio -> Z)
    (api_key : bool) (eleven : nat -> string -> string -> Dub.Response Audio)
    (edge_tts : string -> option string -> option Audio)
    (atempo : Q -> Audio -> option Audio) (lang_code : string)
    (segments : list Dub.Segment) (r : Q) :
  In (Dub.Atempo r)
     (snd (fst (Dub.main Audio duration api_key eleven edge_tts atempo lang_code segments))) ->
  (0.5 <= r)%Q /\ (r <= 2.0)%Q.
Proof.
  unfold Dub.main.
  destruct (Dub.run Audio duration api_key eleven edge_tts atempo lang_code segments
              ([], [])) as [[track l] ps] eqn:Erun.
  destruct (run_gains Audio duration api_key eleven edge_tts atempo lang_code
              segments [] [] track l ps Erun) as (_ & (_ & _ & Hr) & _).
  cbn [fst snd]. intros Hin.
  specialize (Hr (Forall_nil _)). rewrite Forall_forall in Hr.
  exact (Hr _ Hin).
Qed.

(** A clip three times too long: the utility runs with 2.0. *)
Lemma job_stretch_ratios_in_range_witness :
  let job := Dub.main Z (fun a => a) true
    (fun _ _ _ => Dub.Http Z 200 (Some 3000)) (fun _ _ => None) (fun _ a => Some a)
    "en" [Dub.mkSegment 0 1 "hello" None None] in
  snd (fst job) = [Dub.Post Dub.default_voice; Dub.Atempo 2.0] /\
  ((0.5 <= 2.0)%Q /\ (2.0 <= 2.0)%Q).
Proof.
  cbv zeta. split; [reflexivity|].
  apply (job_stretch_ratios_in_range (fun a : Z => a) true
           (fun _ _ _ => Dub.Http Z 200 (Some 3000)) (fun _ _ => None)
           (fun _ a => Some a) "en" [Dub.mkSegment 0 1 "hello" None None] 2.0).
  right. left. reflexivity.
Defined.

Section JobTrack.

Variable Audio : Type.
Variable duration : Audio -> Z.
Variable api_key : bool.
Variable eleven : nat -> string -> string -> Dub.Response Audio.
Variable edge_tts : string -> option string -> option Audio.
Variable atempo : Q -> Audio -> option Audio.
Variable lang_code : string.

Lemma place_spec (track : list (Dub.Piece Audio)) (start_ms : Z) (c : Audio) :
  Dub.place Audio duration track start_ms c =
  track ++ gap_before Audio duration track start_ms ++ [Dub.Sound Audio c].
Proof.
  unfold Dub.place, gap_before.
  destruct (Dub.track_len Audio duration track <? start_ms).
  - rewrite <- app_assoc. reflexivity.
  - reflexivity.
Qed.

(** What one iteration of the segment loop appends to the track, by the
    way the segment went. *)
Lemma step_track (seg : Dub.Segment) (track track' : list (Dub.Piece Audio))
    (l l' : Dub.log) (p : Dub.Path) :
  Dub.step Audio duration api_key eleven edge_tts atempo lang_code seg (track, l)
    = ((track', l'), p) ->
  match p with
  | Dub.Skipped =>
      track' = track /\ l' = l /\
      (Py.truthy (Py.strip (Dub.s_text seg)) = false \/ target_duration_of seg <= 0)
  | Dub.AllFailed =>
      track' = track ++ [Dub.Silent Audio (target_duration_of seg)] /\
      Py.truthy (Py.strip (Dub.s_text seg)) = true /\ 0 < target_duration_of seg
  | _ =>
      (exists c, track' = Dub.place Audio duration track (start_ms_of seg) c) /\
      Py.truthy (Py.strip (Dub.s_text seg)) = true /\ 0 < target_duration_of seg
  end.
Proof.
  unfold Dub.step, target_duration_of, start_ms_of.
  destruct (Py.truthy (Py.strip (Dub.s_text seg))) eqn:Et; cbn [negb].
  2:{ intros [= <- <- <-]. repeat split. now left. }
  destruct (Z.leb_spec (Py.int_of_float (Dub.s_end seg * 1000)
                        - Py.int_of_float (Dub.s_start seg * 1000)) 0) as [Hle | Hgt].
  { intros [= <- <- <-]. repeat split. now right. }
  intros Hstep.
  repeat match type of Hstep with
  | (let (_, _) := ?x in _) = _ => destruct x
  | match ?x with _ => _ end = _ => destruct x
  end;
  injection Hstep as <- <- <-; repeat split; eauto.
Qed.

(** The loop over a list cut in two is the loop over the first part
    followed by the loop over the second part. *)
Lemma run_app (s1 s2 : list Dub.Segment) :
  forall st,
    Dub.run Audio duration api_key eleven edge_tts atempo lang_code (s1 ++ s2) st =
    let '(st1, ps1) :=
      Dub.run Audio duration api_key eleven edge_tts atempo lang_code s1 st in
    let '(st2, ps2) :=
      Dub.run Audio duration api_key eleven edge_tts atempo lang_code s2 st1 in
    (st2, ps1 ++ ps2).
Proof.
  induction s1 as [|seg rest IH]; intros st; cbn [app Dub.run].
  - destruct (Dub.run Audio duration api_key eleven edge_tts atempo lang_code s2 st)
      as [st2 ps2]. reflexivity.
  - destruct (Dub.step Audio duration api_key eleven edge_tts atempo lang_code seg st)
      as [st1 p].
    rewrite IH.
    destruct (Dub.run Audio duration api_key eleven edge_tts atempo lang_code rest st1)
      as [st1' ps1].
    destruct (Dub.run Audio duration api_key eleven edge_tts atempo lang_code s2 st1')
      as [st2 ps2]. reflexivity.
Qed.

Lemma step_extends (seg : Dub.Segment) (st : list (Dub.Piece Audio) * Dub.log) :
  exists added,
    fst (fst (Dub.step Audio duration api_key eleven edge_tts atempo lang_code seg st))
    = fst st ++ added.
Proof.
  destruct st as [track l].
  destruct (Dub.step Audio duration api_key eleven edge_tts atempo lang_code seg
              (track, l)) as [[track' l'] p] eqn:E.
  apply step_track in E. cbn [fst].
  destruct p.
  - destruct E as [(c & ->) _]. rewrite place_spec. eauto.
  - destruct E as [(c & ->) _]. rewrite place_spec. eauto.
  - destruct E as [-> _]. eauto.
  - destruct E as [-> _]. exists []. now rewrite app_nil_r.
Qed.

Lemma run_extends (segments : list Dub.Segment) :
  forall st, exists added,
    fst (fst (Dub.run Audio duration api_key eleven edge_tts atempo lang_code segments st))
    = fst st ++ added.
Proof.
  induction segments as [|seg rest IH]; intros st; cbn [Dub.run].
  - exists []. now rewrite app_nil_r.
  - destruct (step_extends seg st) as [a1 H1].
    destruct (Dub.step Audio duration api_key eleven edge_tts atempo lang_code seg st)
      as [st1 p].
    destruct (IH st1) as [a2 H2].
    destruct (Dub.run Audio duration api_key eleven edge_tts atempo lang_code rest st1)
      as [st2 ps].
    cbn [fst] in *. exists (a1 ++ a2). rewrite H2, H1, app_assoc. reflexivity.
Qed.

End JobTrack.




(** X18. The track is append-only, and the loop composes: the track of a
    job over [s1 ++ s2] begins with the whole track of the job over [s1]. *)
Theorem track_is_append_only {Audio : Type} (duration : Audio -> Z)
    (api_key : bool) (eleven : nat -> string -> string -> Dub.Response Audio)
    (edge_tts : string -> option string -> option Audio)
    (atempo : Q -> Audio -> option Audio) (lang_code : string)
    (s1 s2 : list Dub.Segment) :
  exists added,
    fst (fst (Dub.main Audio duration api_key eleven edge_tts atempo lang_code (s1 ++ s2)))
    = fst (fst (Dub.main Audio duration api_key eleven edge_tts atempo lang_code s1))
      ++ added.
Proof.
  unfold Dub.main. rewrite run_app.
  destruct (Dub.run Audio duration api_key eleven edge_tts atempo lang_code s1 ([], []))
    as [st1 ps1].
  destruct (run_extends Audio duration api_key eleven edge_tts atempo lang_code s2 st1)
    as [added Ha].
  destruct (Dub.run Audio duration api_key eleven edge_tts atempo lang_code s2 st1)
    as [st2 ps2].
  exists added. exact Ha.
Qed.

(** X19. The default voice is requested exactly when the voice of the
    segment is another one and its three answers all fail, the third
    leading to [VOICE_NOT_FOUND]; the default voice then gets its own one
    to three requests.  In every other case only the voice of the segment
    is requested, one to three times. *)
Theorem default_voice_redispatch {Audio : Type}
    (eleven : nat -> string -> string -> Dub.Response Audio)
    (text voice : string) (l : Dub.log) :
  let r := Dub.primary Audio true eleven text voice l in
  let answer j := eleven (Dub.posts_of l + j)%nat voice text in
  let redispatch :=
    voice <> Dub.default_voice /\
    (forall j, (j < 2)%nat -> failure_of (answer j) <> None) /\
    failure_of (answer 2%nat) = Some (Dub.ValueError Dub.VOICE_NOT_FOUND) in
  (redispatch ->
   exists k, (1 <= k <= 3)%nat /\
     fst r = (l ++ attempts_log voice 3) ++ attempts_log Dub.default_voice k) /\
  (~ redispatch ->
   exists k, (1 <= k <= 3)%nat /\ fst r = l ++ attempts_log voice k).
Proof.
  cbv zeta. unfold Dub.primary, Dub.generate_tts. cbn [negb].
  change Dub.MAX_RETRIES with 3%nat.
  destruct (tts_attempts_spec Audio eleven text voice 3 0 l eq_refl
              (le_n_S _ _ (Nat.le_0_l 2))) as (k & Hk & Hlog & Hfail & Hend).
  cbv zeta in Hlog, Hfail, Hend.
  destruct (Dub.tts_attempts Audio eleven text voice 0 3 l) as [l1 out].
  cbn [fst snd] in Hlog, Hend. subst l1.
  destruct Hend as [(body & -> & Ha) | (e & -> & -> & Hf)].
  - split.
    + intros (_ & Hall & Hthird). exfalso.
      assert (Hk3 : (k - 1 < 2 \/ k - 1 = 2)%nat) by lia.
      destruct Hk3 as [Hlt | Heq].
      * apply (Hall _ Hlt). rewrite Ha. reflexivity.
      * rewrite Heq in Ha. rewrite Ha in Hthird. discriminate.
    + intros _. exists k. split; [exact Hk | reflexivity].
  - cbn [Nat.sub] in Hf, Hfail.
    destruct (Dub.exn_eqb_value e Dub.VOICE_NOT_FOUND
              && negb (String.eqb voice Dub.default_voice))%bool eqn:Ec.
    + apply andb_true_iff in Ec. destruct Ec as [Ee Ev].
      destruct (tts_attempts_spec Audio eleven text Dub.default_voice 3 0
                  (l ++ attempts_log voice 3) eq_refl (le_n_S _ _ (Nat.le_0_l 2)))
        as (k' & Hk' & Hlog' & _).
      cbv zeta in Hlog'. split.
      * intros _. exists k'. split; [exact Hk' | exact Hlog'].
      * intros Hno. exfalso. apply Hno. split; [|split].
        -- intros ->. rewrite String.eqb_refl in Ev. discriminate.
        -- exact Hfail.
        -- rewrite Hf. destruct e as [m | m]; [|discriminate].
           cbn in Ee. apply String.eqb_eq in Ee. now subst m.
    + split.
      * intros (Hv & _ & Hthird). exfalso.
        rewrite Hf in Hthird. injection Hthird as ->.
        cbn in Ec. apply negb_false_iff, String.eqb_eq in Ec. contradiction.
      * intros _. exists 3%nat. split; [lia | reflexivity].
Qed.

Section TrackLength.

Variable Audio : Type.
Variable duration : Audio -> Z.
Variable api_key : bool.
Variable eleven : nat -> string -> string -> Dub.Response Audio.
Variable edge_tts : string -> option string -> option Audio.
Variable atempo : Q -> Audio -> option Audio.
Variable lang_code : string.

Hypothesis duration_nonneg : forall a, 0 <= duration a.



End TrackLength.



(** ** The voice of the fallback provider, and the voice table *)

Lemma has_arabic_app (a b : string) :
  Dub.has_arabic (a ++ b) = (Dub.has_arabic a || Dub.has_arabic b)%bool.
Proof.
  induction a as [|c r IH]; cbn [String.append Dub.has_arabic]; [reflexivity|].
  rewrite IH. apply orb_assoc.
Qed.

(** X21. The fallback provider always gets a voice.  A text that holds
    a character of the range U+0600..U+06FF at any place gets the Tunisian
    voice for the language code [tn] and the Saudi voice for every other
    code; a text without such a character gets the voice of its language
    code, and the default voice for a code that is not in the table. *)
Theorem fallback_voice_selection (text lang_code : string) :
  (exists voice, Dub.edge_voice text lang_code = Some voice) /\
  (forall before after c, text = (before ++ String c after)%string ->
     Dub.is_arabic_lead c = true ->
     Dub.edge_voice text lang_code
     = Some (if String.eqb lang_code "tn"
             then "ar-TN-HediNeural"%string else "ar-SA-HamedNeural"%string)) /\
  (Dub.has_arabic text = false ->
     Dub.edge_voice text lang_code
     = Some match Dub.EDGE_VOICES lang_code with
            | Some voice => voice
            | None => "en-US-GuyNeural"%string
            end).
Proof.
  split; [|split].
  - unfold Dub.edge_voice.
    destruct (Dub.has_arabic text).
    + destruct (String.eqb lang_code "tn"); cbn; eauto.
    + destruct (Dub.EDGE_VOICES lang_code); cbn; eauto.
  - intros before after c -> Hc. unfold Dub.edge_voice.
    rewrite has_arabic_app. cbn [Dub.has_arabic]. rewrite Hc, orb_true_r.
    destruct (String.eqb lang_code "tn"); reflexivity.
  - intros Hno. unfold Dub.edge_voice. rewrite Hno.
    destruct (Dub.EDGE_VOICES lang_code); reflexivity.
Qed.

(** X22. Whatever the voice type, [get_best_voice] returns an identifier
    that the segment loop accepts as it is; it is the default voice of the
    loop for every type but ['female']. *)
Theorem best_voice_is_accepted (lang_code voice_type : string)
    (s e : Q) (text : string) (other : option string) :
  let v := DubVoices.get_best_voice lang_code voice_type in
  Dub.segment_voice (Dub.mkSegment s e text (Some v) other) = v /\
  Dub.segment_voice (Dub.mkSegment s e text None (Some v)) = v /\
  (voice_type <> "female"%string -> v = Dub.default_voice).
Proof.
  cbv zeta. unfold DubVoices.get_best_voice.
  destruct (String.eqb voice_type "male").
  - repeat split; reflexivity.
  - destruct (String.eqb_spec voice_type "female").
    + repeat split; try reflexivity. congruence.
    + destruct (String.eqb voice_type "unknown"); repeat split; reflexivity.
Qed.

(** ** The order in which speakers are handled *)

Lemma strictly_sorted_unique (l1 : list string) :
  forall l2,
    StronglySorted String_as_OT.lt l1 -> StronglySorted String_as_OT.lt l2 ->
    (forall x, In x l1 <-> In x l2) -> l1 = l2.
Proof.
  assert (Hirr : forall a, ~ String_as_OT.lt a a).
  { intros a Ha. apply (String_as_OT.lt_not_eq _ _ Ha). reflexivity. }
  induction l1 as [|a r1 IH]; intros [|b r2] S1 S2 Hsame.
  - reflexivity.
  - exfalso. apply (proj2 (Hsame b)). now left.
  - exfalso. apply (proj1 (Hsame a)). now left.
  - inversion S1 as [|? ? S1' F1]; subst. inversion S2 as [|? ? S2' F2]; subst.
    rewrite Forall_forall in F1, F2.
    assert (Hab : a = b).
    { destruct (proj1 (Hsame a) (or_introl eq_refl)) as [Hb | Hin2]; [now symmetry|].
      destruct (proj2 (Hsame b) (or_introl eq_refl)) as [Ha | Hin1]; [exact Ha|].
      exfalso. apply (Hirr a).
      eapply String_as_OT.lt_trans; [apply (F1 b Hin1) | apply (F2 a Hin2)]. }
    subst b. f_equal. apply IH; [exact S1' | exact S2'|].
    intros x. split; intros Hx.
    + destruct (proj1 (Hsame x) (or_intror Hx)) as [<- | H]; [|exact H].
      exfalso. exact (Hirr _ (F1 _ Hx)).
    + destruct (proj2 (Hsame x) (or_intror Hx)) as [<- | H]; [|exact H].
      exfalso. exact (Hirr _ (F2 _ Hx)).
Qed.

(** X23. Speakers are handled in strictly increasing order of their
    labels, and the list of speakers depends only on the set of labels of
    the kept turns, not on the order or the number of the turns. *)
Theorem speakers_sorted_and_order_independent (ds ds' : list Diarization.Turn) :
  StronglySorted String_as_OT.lt (Diarization.unique_speakers ds) /\
  ((forall x, In x (map Diarization.t_speaker ds)
              <-> In x (map Diarization.t_speaker ds')) ->
   Diarization.unique_speakers ds = Diarization.unique_speakers ds').
Proof.
  split.
  - unfold Diarization.unique_speakers.
    pose proof (sorted_set_sorted (map Diarization.t_speaker ds)) as H.
    destruct (Diarization.sorted_set (map Diarization.t_speaker ds)); [|exact H].
    repeat constructor.
  - intros Hsame. unfold Diarization.unique_speakers.
    rewrite (strictly_sorted_unique
               (Diarization.sorted_set (map Diarization.t_speaker ds))
               (Diarization.sorted_set (map Diarization.t_speaker ds'))); [reflexivity | | |].
    + apply sorted_set_sorted.
    + apply sorted_set_sorted.
    + intros x. rewrite !sorted_set_In. apply Hsame.
Qed.
